(** * CMB likelihood utilities: a shallow embedding of [cmb_likelihood_utils.py]

    The module builds the noise, foreground and signal covariance matrices of
    a CMB sky map and evaluates [-2 ln L] for a data vector.  Every function
    of the module is embedded below, in the order of the Python file, on
    lists (one-dimensional arrays), lists of lists (matrices) and lists of
    lists of lists (the Legendre tensor).

    Numbers.  The Python code is duck-typed in its scalars, so the embedding
    is written once over an interface [Scalar] and used at two instances:
    - [R]: exact real arithmetic with the rules of Python scalars (the [/]
      operator raises [ZeroDivisionError] on a zero divisor).  All algebraic
      statements are proved at this instance; rounding is not modelled.
    - [float]: IEEE 754 binary64 with the rules of NumPy scalars (division
      by zero yields an infinity or a NaN).  It makes the embedding
      executable and settles what happens where real arithmetic has no
      answer.  The noise covariance, whose entries are squares that can
      overflow, is treated at this instance.

    [get_lnL] needs square roots and logarithms and is embedded over [R]
    only.

    Libraries.  NumPy's array operations are embedded with their shape rules
    (broadcasting, [ValueError] on shapes that do not fit).  SciPy's
    [cholesky], [solve_triangular] and [legendre] are embedded by what they
    compute in exact arithmetic with the defaults the module calls them
    with.

    Errors.  Functions that may raise return a [result]; the exceptions that
    can occur are collected in [pyerr]. *)

From Stdlib Require Import Reals Lra Lia ZArith.
From Stdlib Require PrimFloat Uint63 FloatAxioms.
From stdpp Require Import base list.

(** ** Exceptions and the result monad *)

Inductive pyerr : Type :=
  | IndexError          (* index out of bounds *)
  | ValueError          (* shapes that cannot be broadcast or are not square *)
  | ZeroDivisionError   (* [/] between Python scalars with a zero divisor *)
  | LinAlgError.        (* Cholesky: matrix not positive definite; solve: singular *)

Inductive result (A : Type) : Type :=
  | Ok (a : A)
  | Raise (e : pyerr).
Arguments Ok {A} a.
Arguments Raise {A} e.

#[global] Instance result_ret : MRet result := λ A, @Ok A.
#[global] Instance result_bind : MBind result := λ A B f m,
  match m with Ok a => f a | Raise e => Raise e end.

(** A [for] loop over a list of indices whose body may raise. *)
Fixpoint for_each {S A : Type} (body : S → A → result S) (s : S) (xs : list A)
  : result S :=
  match xs with
  | [] => Ok s
  | x :: xs' => s' ← body s x; for_each body s' xs'
  end.

(** [a[i]] and [a[i] = v] on a one-dimensional array, for [i >= 0]. *)
Definition getitem {A : Type} (a : list A) (i : nat) : result A :=
  match a !! i with Some v => Ok v | None => Raise IndexError end.

Definition setitem {A : Type} (a : list A) (i : nat) (v : A) : result (list A) :=
  if decide (i < length a) then Ok (<[i:=v]> a) else Raise IndexError.

(** ** Scalars *)

Class Scalar (T : Type) : Type := {
  of_int : Z → T;               (* a Python int used in float arithmetic *)
  s_add : T → T → T;
  s_sub : T → T → T;
  s_mul : T → T → T;
  s_div : T → T → T;            (* elementwise array division, never raises *)
  truediv : T → T → result T;   (* [/] between two scalars *)
  s_pi : T;
}.

#[global] Hint Mode Scalar ! : typeclass_instances.

Declare Scope scalar_scope.
Delimit Scope scalar_scope with S.
Infix "+" := s_add : scalar_scope.
Infix "-" := s_sub : scalar_scope.
Infix "*" := s_mul : scalar_scope.
Infix "/" := s_div : scalar_scope.

(** Exact reals with Python's scalar division. *)
#[global] Instance PyReal : Scalar R := {|
  of_int := IZR;
  s_add := Rplus;
  s_sub := Rminus;
  s_mul := Rmult;
  s_div := Rdiv;
  truediv := λ a b, if Req_dec_T b 0%R then Raise ZeroDivisionError else Ok (a / b)%R;
  s_pi := PI;
|}.

(** binary64 with NumPy's scalar division.  [float_of_Z] converts the small
    integers of the module exactly; [float64_pi] is the double nearest to
    pi, [0x1.921fb54442d18p+1], written as an exact quotient. *)
Definition float_of_Z (z : Z) : PrimFloat.float :=
  match z with
  | Zneg p => PrimFloat.opp (PrimFloat.of_uint63 (Uint63.of_Z (Zpos p)))
  | _ => PrimFloat.of_uint63 (Uint63.of_Z z)
  end.

Definition float64_pi : PrimFloat.float :=
  PrimFloat.div (float_of_Z 7074237752028440) (float_of_Z 2251799813685248).

#[global] Instance NpFloat64 : Scalar PrimFloat.float := {|
  of_int := float_of_Z;
  s_add := PrimFloat.add;
  s_sub := PrimFloat.sub;
  s_mul := PrimFloat.mul;
  s_div := PrimFloat.div;
  truediv := λ a b, Ok (PrimFloat.div a b);
  s_pi := float64_pi;
|}.

Definition is_finite (x : PrimFloat.float) : bool :=
  negb (PrimFloat.is_nan x) && negb (PrimFloat.is_infinity x).

(** binary64 arrays with integer entries, for test inputs *)
Definition f64_vector (v : list Z) : list PrimFloat.float :=
  float_of_Z <$> v.
Definition f64_matrix (M : list (list Z)) : list (list PrimFloat.float) :=
  f64_vector <$> M.
Definition f64_tensor (p : list (list (list Z)))
  : list (list (list PrimFloat.float)) :=
  f64_matrix <$> p.

(** [2.0 ** 512], by squaring [2.0 ** 32] four times: a finite binary64
    number whose square overflows *)
Definition float64_2p512 : PrimFloat.float :=
  let square x := PrimFloat.mul x x in
  square (square (square (square (float_of_Z (2 ^ 32))))).

(** ** NumPy array primitives *)

Section Arrays.
Context {T : Type} `{Scalar T}.
Local Open Scope scalar_scope.

(** Broadcasting along one axis: equal lengths are zipped, an axis of
    length one is stretched, anything else is a [ValueError]. *)
Definition broadcast {A B C : Type} (f : A → B → result C)
    (u : list A) (v : list B) : result (list C) :=
  if decide (length u = length v) then mapM (λ ab, f ab.1 ab.2) (zip u v)
  else match u, v with
       | [a], _ => mapM (f a) v
       | _, [b] => mapM (λ a, f a b) u
       | _, _ => Raise ValueError
       end.

(** Elementwise binary operations on arrays of rank 1, 2 and 3. *)
Definition ew1 (f : T → T → T) : list T → list T → result (list T) :=
  broadcast (λ a b, Ok (f a b)).
Definition ew2 (f : T → T → T) := broadcast (ew1 f).
Definition ew3 (f : T → T → T) := broadcast (ew2 f).

(** [x ** 2] *)
Definition sqr (x : T) : T := x * x.

(** [numpy.zeros(n)], [numpy.zeros((n, m, k))], [numpy.ones((n, m))] *)
Definition zeros (n : nat) : list T := replicate n (of_int 0).
Definition zeros3 (n m k : nat) : list (list (list T)) :=
  replicate n (replicate m (zeros k)).
Definition ones (n m : nat) : list (list T) :=
  replicate n (replicate m (of_int 1)).

(** [numpy.eye(n, m)] *)
Definition eye (n m : nat) : list (list T) :=
  (λ i, (λ j, if decide (i = j) then of_int 1 else of_int 0) <$> seq 0 m)
    <$> seq 0 n.

(** [numpy.outer(u, v)] *)
Definition outer (u v : list T) : list (list T) :=
  (λ a, (λ b, a * b) <$> v) <$> u.

(** [numpy.sum] of a one-dimensional array *)
Definition np_sum (a : list T) : T := foldr s_add (of_int 0) a.

(** inner product of two one-dimensional arrays *)
Definition vdot (u v : list T) : T := np_sum (zip_with s_mul u v).

(** [numpy.vstack] of one-dimensional arrays: they must agree in length. *)
Definition vstack (rows : list (list T)) : result (list (list T)) :=
  match rows with
  | [] => Raise ValueError
  | r :: _ =>
      if decide (Forall (λ r', length r' = length r) rows)
      then Ok rows else Raise ValueError
  end.

(** [M.T] for a matrix whose rows have the length of the first one. *)
Definition transpose (M : list (list T)) : list (list T) :=
  (λ j, (λ row, default (of_int 0) (row !! j)) <$> M)
    <$> seq 0 (length (default [] (head M))).

(** [numpy.dot(A, B)] of two matrices: the rows of [A] must be as long as
    [B] has rows. *)
Definition dot (A B : list (list T)) : result (list (list T)) :=
  if decide (Forall (λ row, length row = length B) A)
  then Ok ((λ row, (λ col, vdot row col) <$> transpose B) <$> A)
  else Raise ValueError.

(** [numpy.linspace(start, stop, num)]: [num] samples, the last one set to
    [stop] itself. *)
Definition linspace (start stop : T) (num : nat) : list T :=
  match num with
  | 0 => []
  | 1 => [start]
  | _ =>
      let step := (stop - start) / of_int (Z.of_nat (num - 1)%nat) in
      <[(num - 1)%nat := stop]>
        ((λ k, of_int (Z.of_nat k) * step + start) <$> seq 0 num)
  end.

(** a scalar function applied to every entry of a matrix *)
Definition map_entries (f : T → T) (M : list (list T)) : list (list T) :=
  (λ row : list T, f <$> row) <$> M.

(** [numpy.sum(p, 2)]: the sum along the last axis of a rank 3 array *)
Definition sum_axis2 (p : list (list (list T))) : list (list T) :=
  (λ row : list (list T), np_sum <$> row) <$> p.

(** [numpy.diagonal(M)] of a square matrix *)
Definition diagonal (M : list (list T)) : list T :=
  imap (λ i row, default (of_int 0) (row !! i)) M.

(** [p[:, :, l] = M] for a value [M] of the shape of the first two axes of
    [p] (the only use in the module): [l] must lie within the last axis. *)
Definition set_slice (p : list (list (list T))) (l : nat)
    (M : list (list T)) : result (list (list (list T))) :=
  if decide (Forall (Forall (λ v, l < length v)) p) then
    if decide (Forall2 (λ prow mrow, length prow = length mrow) p M)
    then Ok (zip_with (zip_with (λ v m, <[l:=m]> v)) p M)
    else Raise ValueError
  else Raise IndexError.
End Arrays.

(** ** The functions of [cmb_likelihood_utils.py] *)

Section Utils.
Context {T : Type} `{Scalar T}.
Local Open Scope scalar_scope.

(** [get_noise_cov(rms)]: [eye(len(rms), len(rms)) * rms ** 2], the
    one-dimensional [rms ** 2] broadcast along the rows. *)
Definition get_noise_cov (rms : list T) : result (list (list T)) :=
  ew2 s_mul (eye (length rms) (length rms)) [sqr <$> rms].

(** [get_foreground_cov(x, y, z)] *)
Definition get_foreground_cov (x y z : list T) : result (list (list T)) :=
  let large_value := of_int 1000 in
  let monopole := ones (length x) (length x) in
  xy ← ew2 s_add (outer x x) (outer y y);
  dipole ← ew2 s_add xy (outer z z);
  total ← ew2 s_add monopole dipole;
  ew2 s_mul [[large_value]] total.

(** One pass of the loop of [get_C_ell_model]:
    [C_ell[l + 1] = (2 * l + n - 1) / (2 * l + 5 - n) * C_ell[l]]. *)
Definition C_ell_step (n : T) (C_ell : list T) (l : nat) : result (list T) :=
  ratio ← truediv (of_int (2 * Z.of_nat l) + n - of_int 1)
                  (of_int (2 * Z.of_nat l + 5) - n);
  c ← getitem C_ell l;
  setitem C_ell (l + 1)%nat (ratio * c).

(** [get_C_ell_model(Q, n, lmax)] *)
Definition get_C_ell_model (Q n : T) (lmax : nat) : result (list T) :=
  let C_ell := zeros (lmax + 1)%nat in
  q ← truediv (of_int 4 * s_pi) (of_int 5);
  C_ell ← setitem C_ell 2 (q * sqr Q);
  for_each (C_ell_step n) C_ell (seq 2 (lmax - 2)%nat).

(** [scipy.special.legendre(l)], as the callable it returns: the value of
    the Legendre polynomial of degree [l], by Bonnet's recurrence
    [(l + 1) P_{l+1}(x) = (2 l + 1) x P_l(x) - l P_{l-1}(x)].
    [legendre_pair l x] is [(P_l(x), P_{l+1}(x))]. *)
Fixpoint legendre_pair (l : nat) (x : T) : T * T :=
  match l with
  | O => (of_int 1, x)
  | S k =>
      let '(p0, p1) := legendre_pair k x in
      (p1, (of_int (2 * Z.of_nat k + 3) * x * p1 - of_int (Z.of_nat k + 1) * p0)
             / of_int (Z.of_nat k + 2))
  end.

Definition legendre (l : nat) (x : T) : T := (legendre_pair l x).1.

(** [get_legendre_coeff(lmax)] *)
Definition get_legendre_coeff (lmax : nat) : list (T → T) :=
  legendre <$> seq 0 (lmax + 1)%nat.

(** [get_legendre_mat(lmax, x, y, z)] *)
Definition get_legendre_mat (lmax : nat) (x y z : list T)
  : result (list (list (list T))) :=
  let leg := get_legendre_coeff lmax in
  xyz ← vstack [x; y; z];
  let pos_vec := transpose xyz in
  costheta ← dot pos_vec (transpose pos_vec);
  let ndata := length x in
  let p_ell_ij := zeros3 ndata ndata (lmax + 1)%nat in
  for_each
    (λ p l, P ← getitem leg l; set_slice p l (map_entries P costheta))
    p_ell_ij (seq 0 (lmax + 1)%nat).

(** [get_signal_cov(C_ell, beam, pixwin, p_ell_ij)].  [lmax + 1] is
    [len(C_ell)], so the sample points are
    [linspace(0, len(C_ell), len(C_ell))]. *)
Definition get_signal_cov (C_ell beam pixwin : list T)
    (p_ell_ij : list (list (list T))) : result (list (list T)) :=
  let num := length C_ell in
  let ell :=
    (λ a : T, of_int 2 * a - of_int 1)
      <$> linspace (of_int 0) (of_int (Z.of_nat num)) num in
  w1 ← ew1 s_mul ell (sqr <$> beam);
  w2 ← ew1 s_mul w1 (sqr <$> pixwin);
  w3 ← ew1 s_mul w2 C_ell;
  terms ← ew3 s_mul [[w3]] p_ell_ij;
  let S_cov := sum_axis2 terms in
  Ok (map_entries (λ s, s / (of_int 4 * s_pi)) S_cov).
End Utils.

(** ** The likelihood, over the reals *)

Local Open Scope R_scope.

(** [scipy.linalg.cholesky(a)], default [lower=False]: the upper triangular
    [U] with [a = U^T U].  Only the upper triangle of [a] is read.  The
    factorisation eliminates one row at a time: pivot [a00] must be
    positive, the first row of [U] is the first row of [a] over [sqrt a00],
    and the rest is the factor of the trailing block minus the outer product
    of that row with itself.  A pivot that is not positive is LAPACK's
    [info > 0], raised by SciPy as [LinAlgError]. *)
Fixpoint potrf_upper (n : nat) (A : list (list R)) : result (list (list R)) :=
  match n with
  | O => Ok []
  | S n' =>
      match A with
      | (a :: b) :: rest =>
          if Rle_dec a 0 then Raise LinAlgError
          else
            let r := sqrt a in
            let u := (λ v, v / r) <$> b in
            let A' := zip_with (zip_with Rminus) (tail <$> rest) (outer u u) in
            U' ← potrf_upper n' A';
            Ok ((r :: u) :: (cons 0 <$> U'))
      | _ => Raise ValueError
      end
  end.

Definition cholesky (a : list (list R)) : result (list (list R)) :=
  if decide (Forall (λ row, length row = length a) a)
  then potrf_upper (length a) a
  else Raise ValueError.

(** [scipy.linalg.solve_triangular(a, b)], default [lower=False]: back
    substitution in the upper triangle of [a]; the entries below the
    diagonal are not read.  A zero on the diagonal is [LinAlgError]. *)
Fixpoint trtrs_upper (a : list (list R)) (b : list R) : result (list R) :=
  match b with
  | [] => Ok []
  | bi :: b' =>
      match a with
      | (u :: row) :: a' =>
          x' ← trtrs_upper (tail <$> a') b';
          if Req_dec_T u 0 then Raise LinAlgError
          else Ok ((bi - vdot row x') / u :: x')
      | _ => Raise ValueError
      end
  end.

Definition solve_triangular (a : list (list R)) (b : list R) : result (list R) :=
  if decide (Forall (λ row, length row = length a) a ∧ length a = length b)
  then trtrs_upper a b
  else Raise ValueError.

(** [get_lnL(data, cov)] *)
Definition get_lnL (data : list R) (cov : list (list R)) : result R :=
  L ← cholesky cov;
  let lndet := np_sum (ln <$> diagonal L) in
  x ← solve_triangular L data;
  Ok (vdot x x + lndet).

(** ** Vocabulary of the statements *)

Local Close Scope R_scope.

(** Entry [(i, j)] of a matrix, if it exists. *)
Definition entry {A : Type} (M : list (list A)) (i j : nat) : option A :=
  M !! i ≫= λ row, row !! j.

(** [M] has [n] rows of length [m]. *)
Definition is_matrix {A : Type} (n m : nat) (M : list (list A)) : Prop :=
  length M = n ∧ Forall (λ row, length row = m) M.

Definition symmetric {A : Type} (M : list (list A)) : Prop :=
  ∀ i j, entry M i j = entry M j i.

(** The matrix with entry [f i j] at [(i, j)]. *)
Definition tabulate2 {A : Type} (n m : nat) (f : nat → nat → A) : list (list A) :=
  (λ i, f i <$> seq 0 m) <$> seq 0 n.

(** Component [i] of a real vector, [0] outside of it. *)
Definition at1 (v : list R) (i : nat) : R := default 0%R (v !! i).


(** [M] is a sum of [r] outer products [u_k v_k^T]: its rank is at most [r]. *)
Definition rank_le (r : nat) (M : list (list R)) : Prop :=
  ∃ us vs : list (list R),
    length us = r ∧ length vs = r ∧
    ∀ i j a, entry M i j = Some a →
             a = np_sum (zip_with (λ u v, at1 u i * at1 v j)%R us vs).

(** The model spectrum as a function of the multipole: [0] for the monopole
    and the dipole, the quadrupole [4 pi / 5 * Q^2], and from there the
    recursion [C(l + 1) = (2 l + n - 1) / (2 l + 5 - n) * C(l)]. *)
Fixpoint spectrum (Q n : R) (l : nat) : R :=
  match l with
  | 0 => 0
  | S l' =>
      match l' with
      | 0 => 0
      | 1 => 4 * PI / 5 * (Q * Q)
      | _ => (IZR (2 * Z.of_nat l') + n - 1) / (IZR (2 * Z.of_nat l' + 5) - n)
             * spectrum Q n l'
      end
  end%R.

(** The array [C_ell] of [get_C_ell_model] after the passes [l = 2 .. k + 1]
    of its loop: filled up to index [k + 2]. *)
Definition spectrum_upto (Q n : R) (lmax k : nat) : list R :=
  (λ i, if decide (i ≤ k + 2) then spectrum Q n i else 0%R) <$> seq 0 (lmax + 1).

(** The rank 3 array with entry [f i j l] at [(i, j, l)]. *)
Definition tabulate3 {A : Type} (n m k : nat) (f : nat → nat → nat → A)
  : list (list (list A)) :=
  (λ i, tabulate2 m k (f i)) <$> seq 0 n.

(** The slice [p[:, :, l]] of a rank 3 array of reals. *)
Definition slice (p : list (list (list R))) (l : nat) : list (list R) :=
  (λ row : list (list R), (λ v, at1 v l) <$> row) <$> p.

(** The matrix of the pairwise dot products of the vectors [(x_i, y_i, z_i)]. *)
Definition cosine_matrix (x y z : list R) : list (list R) :=
  tabulate2 (length x) (length x)
    (λ i j, at1 x i * at1 x j + at1 y i * at1 y j + at1 z i * at1 z j)%R.

(** The Legendre tensor while the loop of [get_legendre_mat] fills it: the
    slices below [k] hold the polynomial values, the others are still zero. *)
Definition legendre_upto (c : nat → nat → R) (N lmax k : nat)
  : list (list (list R)) :=
  tabulate3 N N (lmax + 1)
    (λ i j l, if decide (l < k) then legendre l (c i j) else 0%R).

(** The signal covariance of the specification:
    [S[i,j] = 1 / (4 pi) * sum_l (2 l + 1) beam[l]^2 pixwin[l]^2 C[l] P[i,j,l]],
    the sum over [l = 0 .. len(C_ell) - 1]. *)
Definition signal_cov_formula (C_ell beam pixwin : list R)
    (p_ell_ij : list (list (list R))) : list (list R) :=
  (λ row : list (list R),
     (λ P : list R,
        1 / (4 * PI)
        * np_sum ((λ l, (2 * INR l + 1) * at1 beam l ^ 2 * at1 pixwin l ^ 2
                        * at1 C_ell l * at1 P l)
                    <$> seq 0 (length C_ell)))%R <$> row) <$> p_ell_ij.

(** Matrix-vector product, the quadratic form [x^T M x], and positive
    definiteness of a square matrix. *)
Definition matvec (M : list (list R)) (x : list R) : list R :=
  (λ row, vdot row x) <$> M.

Definition quad_form (M : list (list R)) (x : list R) : R :=
  vdot x (matvec M x).

Definition positive_definite (M : list (list R)) : Prop :=
  ∀ x, length x = length M → Exists (λ a, a ≠ 0%R) x → (0 < quad_form M x)%R.

(** [numpy.diag(v)]: the diagonal matrix of a sequence. *)
Definition np_diag (v : list R) : list (list R) :=
  imap (λ i a, <[i:=a]> (zeros (length v))) v.

(** The determinant of an [n x n] matrix, expanded along its first row. *)
Fixpoint det (n : nat) (M : list (list R)) : R :=
  match n, M with
  | 0, _ => 1
  | S n', row :: rest =>
      np_sum (imap (λ j a, (-1) ^ j * a * det n' (delete j <$> rest)) row)
  | S _, [] => 0
  end%R.

(** ** Vocabulary of the further properties *)

(** Positive semidefiniteness of a square matrix. *)
Definition positive_semidefinite (M : list (list R)) : Prop :=
  ∀ x, length x = length M → (0 <= quad_form M x)%R.

(** A rank 3 array whose slices are all symmetric: [p[i, j, :] = p[j, i, :]]. *)
Definition symmetric_slices (p : list (list (list R))) : Prop :=
  ∀ i j, entry p i j = entry p j i.

(** The shape of a Cholesky factor as [potrf_upper] builds it: upper
    triangular of order [n], with a positive diagonal. *)
Inductive upper_factor : nat → list (list R) → Prop :=
  | upper_factor_nil : upper_factor 0 []
  | upper_factor_cons (n : nat) (r : R) (u : list R) (U' : list (list R)) :
      (0 < r)%R → length u = n → upper_factor n U' →
      upper_factor (S n) ((r :: u) :: (cons 0%R <$> U')).

(** Entry [(i, j, l)] of a rank 3 array, if it exists. *)
Definition entry3 {A : Type} (p : list (list (list A))) (i j l : nat) : option A :=
  entry p i j ≫= λ v, v !! l.

(** Two matrices with the same entries on and above the diagonal. *)
Definition same_upper_triangle (M N : list (list R)) : Prop :=
  ∀ i j, i ≤ j → entry M i j = entry N i j.

(** The real number a binary64 value stands for, [(-1)^s * m * 2^e];
    infinities and NaN stand for none and are sent to [0]. *)
Definition float64_to_R (x : PrimFloat.float) : R :=
  match FloatOps.Prim2SF x with
  | SpecFloat.S754_finite s m e =>
      ((if s then -1 else 1) * IZR (Z.pos m) * powerRZ 2 e)%R
  | _ => 0%R
  end.

(** A binary64 matrix read entry by entry as a real matrix. *)
Definition float64_matrix_to_R (M : list (list PrimFloat.float))
  : list (list R) :=
  (λ row : list PrimFloat.float, float64_to_R <$> row) <$> M.

(** The square of [s] in binary64 neither overflows nor is NaN, and it does
    not underflow to zero. *)
Definition square_in_range (s : PrimFloat.float) : Prop :=
  is_finite (PrimFloat.mul s s) = true ∧
  PrimFloat.is_zero (PrimFloat.mul s s) = false.

(** * Proofs *)

(** ** Results of loops and broadcasting *)

Lemma mapM_Ok {A B : Type} (f : A → result B) (g : A → B) (l : list A) :
  Forall (λ a, f a = Ok (g a)) l → mapM f l = Ok (g <$> l).
Proof.
  induction 1 as [|a l Ha _ IH]; [done|].
  cbn. rewrite Ha. cbn. fold (mapM f l). by rewrite IH.
Qed.

Section Broadcast.
Context {A B C : Type}.

Lemma broadcast_zip (f : A → B → result C) (g : A → B → C) u v :
  length u = length v →
  Forall2 (λ a b, f a b = Ok (g a b)) u v →
  broadcast f u v = Ok (zip_with g u v).
Proof.
  intros Hlen HF. unfold broadcast. rewrite decide_True by done.
  rewrite (mapM_Ok _ (λ ab, g ab.1 ab.2)).
  - f_equal. clear Hlen. induction HF; cbn; by f_equal.
  - clear Hlen. induction HF; cbn; constructor; done.
Qed.

Lemma broadcast_stretch_l (f : A → B → result C) a v :
  broadcast f [a] v = mapM (f a) v.
Proof.
  unfold broadcast. case_decide as Hl; [|done].
  destruct v as [|b [|??]]; try done.
Qed.

Lemma broadcast_stretch_r (f : A → B → result C) u b :
  broadcast f u [b] = mapM (λ a, f a b) u.
Proof.
  unfold broadcast. case_decide as Hl.
  - destruct u as [|a [|??]]; try done.
  - destruct u as [|a [|??]]; try done.
Qed.
End Broadcast.

(** ** Tabulated vectors and matrices *)

Lemma lookup_tabulate {A : Type} (f : nat → A) (n i : nat) :
  (f <$> seq 0 n) !! i = if decide (i < n) then Some (f i) else None.
Proof.
  rewrite list_lookup_fmap. case_decide.
  - by rewrite lookup_seq_lt.
  - by rewrite lookup_seq_ge by lia.
Qed.

Lemma entry_tabulate2 {A : Type} (f : nat → nat → A) (n m i j : nat) :
  entry (tabulate2 n m f) i j =
  if decide (i < n ∧ j < m) then Some (f i j) else None.
Proof.
  unfold entry, tabulate2. rewrite lookup_tabulate.
  destruct (decide (i < n)); cbn; [rewrite lookup_tabulate|];
    repeat case_decide; done || lia.
Qed.

Lemma is_matrix_tabulate2 {A : Type} (f : nat → nat → A) (n m : nat) :
  is_matrix n m (tabulate2 n m f).
Proof.
  split; unfold tabulate2.
  - by rewrite length_fmap, length_seq.
  - apply Forall_fmap, Forall_forall. intros i _. cbn.
    by rewrite length_fmap, length_seq.
Qed.

Lemma symmetric_tabulate2 {A : Type} (f : nat → nat → A) (n : nat) :
  (∀ i j, i < n → j < n → f i j = f j i) → symmetric (tabulate2 n n f).
Proof.
  intros Hf i j. rewrite !entry_tabulate2.
  repeat case_decide; try done; try lia. f_equal. apply Hf; lia.
Qed.

Lemma vector_tabulate (v : list R) : v = at1 v <$> seq 0 (length v).
Proof.
  apply list_eq. intros i. rewrite lookup_tabulate. unfold at1.
  case_decide as Hi.
  - destruct (lookup_lt_is_Some_2 v i Hi) as [a Ha]. by rewrite Ha.
  - apply lookup_ge_None. lia.
Qed.

Lemma zip_with_tabulate {A B C : Type} (g : A → B → C) (f : nat → A)
    (h : nat → B) (n : nat) :
  zip_with g (f <$> seq 0 n) (h <$> seq 0 n) = (λ i, g (f i) (h i)) <$> seq 0 n.
Proof. rewrite zip_with_fmap_l, zip_with_fmap_r, zip_with_diag. done. Qed.

(** Elementwise operations on tabulated arrays of equal shape. *)
Section Elementwise.
Context {T : Type} `{Scalar T}.

Lemma ew1_tabulate (op : T → T → T) (f g : nat → T) (n : nat) :
  ew1 op (f <$> seq 0 n) (g <$> seq 0 n) = Ok ((λ i, op (f i) (g i)) <$> seq 0 n).
Proof.
  unfold ew1. rewrite (broadcast_zip _ op).
  - by rewrite zip_with_tabulate.
  - by rewrite !length_fmap.
  - apply Forall2_fmap, Forall_Forall2_diag, Forall_forall. done.
Qed.
End Elementwise.

Section Elementwise2.
Context {T : Type} `{Scalar T}.

Lemma ew2_tabulate (op : T → T → T) (f g : nat → nat → T) (n m : nat) :
  ew2 op (tabulate2 n m f) (tabulate2 n m g)
  = Ok (tabulate2 n m (λ i j, op (f i j) (g i j))).
Proof.
  unfold ew2, tabulate2. rewrite (broadcast_zip _ (zip_with op)).
  - rewrite zip_with_tabulate. f_equal. apply list_fmap_ext.
    intros _ i _. apply zip_with_tabulate.
  - by rewrite !length_fmap.
  - apply Forall2_fmap, Forall_Forall2_diag, Forall_forall.
    intros i _. cbn. rewrite ew1_tabulate. by rewrite zip_with_tabulate.
Qed.

Lemma ew1_scalar (op : T → T → T) (c : T) (v : list T) :
  ew1 op [c] v = Ok (op c <$> v).
Proof.
  unfold ew1. rewrite broadcast_stretch_l. apply mapM_Ok, Forall_forall. done.
Qed.

(** A one-dimensional array against every row of a matrix. *)
Lemma ew2_row (op : T → T → T) (f : nat → nat → T) (g : nat → T) (n m : nat) :
  ew2 op (tabulate2 n m f) [g <$> seq 0 m]
  = Ok (tabulate2 n m (λ i j, op (f i j) (g j))).
Proof.
  unfold ew2. rewrite broadcast_stretch_r. unfold tabulate2.
  rewrite (mapM_Ok _ (λ row, zip_with op row (g <$> seq 0 m))).
  - f_equal. rewrite <- list_fmap_compose. apply list_fmap_ext.
    intros _ i _. cbn. apply zip_with_tabulate.
  - apply Forall_fmap, Forall_forall. intros i _. cbn.
    rewrite ew1_tabulate. by rewrite zip_with_tabulate.
Qed.

(** A scalar against every entry of a matrix. *)
Lemma ew2_scalar (op : T → T → T) (c : T) (M : list (list T)) :
  ew2 op [[c]] M = Ok (map_entries (op c) M).
Proof.
  unfold ew2. rewrite broadcast_stretch_l.
  apply mapM_Ok, Forall_forall. intros row _. apply ew1_scalar.
Qed.
End Elementwise2.

(** ** The noise covariance *)

Local Open Scope R_scope.

Lemma get_noise_cov_tabulate (rms : list R) :
  get_noise_cov rms
  = Ok (tabulate2 (length rms) (length rms)
          (λ i j, (if decide (i = j) then 1 else 0) * (at1 rms j * at1 rms j))).
Proof.
  unfold get_noise_cov.
  rewrite (vector_tabulate rms) at 3. rewrite <- list_fmap_compose.
  change (eye (length rms) (length rms))
    with (tabulate2 (length rms) (length rms)
            (λ i j, if decide (i = j) then of_int (T:=R) 1 else of_int 0)).
  by rewrite ew2_row.
Qed.

(** The noise covariance in exact real arithmetic, where [0 * x = 0] for
    every [x] and no square overflows: [get_noise_cov rms] is the diagonal
    matrix of the squares.  In binary64 this needs the squares to be
    finite; that statement is proved with the binary64 lemmas below. *)
Theorem get_noise_cov_diagonal :
  (∀ rms : list R, ∃ N_cov,
      get_noise_cov rms = Ok N_cov ∧
      is_matrix (length rms) (length rms) N_cov ∧
      (∀ i s, rms !! i = Some s → entry N_cov i i = Some (s ^ 2)) ∧
      (∀ i j, (i < length rms)%nat → (j < length rms)%nat → i ≠ j →
              entry N_cov i j = Some 0) ∧
      symmetric N_cov) ∧
  get_noise_cov [1; 2; 3] = Ok [[1; 0; 0]; [0; 4; 0]; [0; 0; 9]].
Proof.
  split.
  - intros rms. eexists. split; [apply get_noise_cov_tabulate|].
    split; [apply is_matrix_tabulate2|]. repeat split.
    + intros i s Hi. rewrite entry_tabulate2.
      pose proof (lookup_lt_Some _ _ _ Hi).
      rewrite decide_True by done. rewrite decide_True by done.
      unfold at1. rewrite Hi. cbn. f_equal. ring.
    + intros i j Hi Hj Hij. rewrite entry_tabulate2.
      rewrite decide_True by done. rewrite decide_False by done.
      f_equal. ring.
    + intros i j. destruct (Nat.eq_dec i j) as [->|Hij]; [done|].
      rewrite !entry_tabulate2.
      repeat case_decide; try done; try lia. f_equal. ring.
  - rewrite get_noise_cov_tabulate. cbn. unfold at1. cbn.
    repeat f_equal; case_decide; done || lra.
Qed.

(** ** The foreground covariance *)

Lemma outer_tabulate (u v : list R) :
  outer u v = tabulate2 (length u) (length v) (λ i j, at1 u i * at1 v j).
Proof.
  unfold outer, tabulate2.
  rewrite (vector_tabulate u) at 1. rewrite <- list_fmap_compose.
  apply list_fmap_ext. intros _ i _. cbn.
  rewrite (vector_tabulate v) at 1. by rewrite <- list_fmap_compose.
Qed.

Lemma replicate_tabulate {A : Type} (a : A) (n : nat) :
  replicate n a = (λ _, a) <$> seq 0 n.
Proof.
  apply list_eq. intros i. rewrite lookup_tabulate. case_decide.
  - by apply lookup_replicate_2.
  - apply lookup_ge_None. rewrite length_replicate. lia.
Qed.

Lemma ones_tabulate (n m : nat) :
  ones n m = tabulate2 n m (λ _ _, 1).
Proof. unfold ones, tabulate2. by rewrite !replicate_tabulate. Qed.

Lemma map_entries_tabulate2 (g : R → R) (f : nat → nat → R) (n m : nat) :
  map_entries g (tabulate2 n m f) = tabulate2 n m (λ i j, g (f i j)).
Proof.
  unfold map_entries, tabulate2. rewrite <- list_fmap_compose.
  apply list_fmap_ext. intros _ i _. cbn. by rewrite <- list_fmap_compose.
Qed.

Lemma get_foreground_cov_tabulate (x y z : list R) :
  length y = length x → length z = length x →
  get_foreground_cov x y z
  = Ok (tabulate2 (length x) (length x)
          (λ i j, 1000 * (1 + (at1 x i * at1 x j + at1 y i * at1 y j
                               + at1 z i * at1 z j)))).
Proof.
  intros Hy Hz. unfold get_foreground_cov.
  rewrite !outer_tabulate, Hy, Hz.
  rewrite ew2_tabulate. cbn. rewrite ew2_tabulate. cbn.
  rewrite ones_tabulate, ew2_tabulate. cbn.
  by rewrite ew2_scalar, map_entries_tabulate2.
Qed.

(** C8.  For coordinate sequences [x], [y], [z] of equal length [N],
    [get_foreground_cov x y z] returns an [N x N] matrix that is symmetric,
    whose entries are [1000] times the sum of the constant monopole template
    [1 * 1] and of the three dipole templates [x_i x_j], [y_i y_j],
    [z_i z_j], and which is a sum of four outer products, hence of rank at
    most [4]. *)
Theorem get_foreground_cov_symmetric_rank4 (x y z : list R) :
  length y = length x → length z = length x →
  ∃ F_cov,
    get_foreground_cov x y z = Ok F_cov ∧
    is_matrix (length x) (length x) F_cov ∧
    symmetric F_cov ∧
    rank_le 4 F_cov ∧
    ∀ i j, (i < length x)%nat → (j < length x)%nat →
      entry F_cov i j
      = Some (1000 * (1 * 1 + at1 x i * at1 x j + at1 y i * at1 y j
                      + at1 z i * at1 z j)).
Proof.
  intros Hy Hz. eexists. split; [by apply get_foreground_cov_tabulate|].
  split; [apply is_matrix_tabulate2|]. repeat split.
  - apply symmetric_tabulate2. intros i j _ _. ring.
  - exists [(λ _, 1000) <$> x; Rmult 1000 <$> x; Rmult 1000 <$> y; Rmult 1000 <$> z],
           [(λ _, 1) <$> x; x; y; z].
    repeat split. intros i j a. rewrite entry_tabulate2.
    case_decide as Hij; [|done]. destruct Hij as [Hi Hj]. intros [= <-].
    cbn. unfold at1. rewrite !list_lookup_fmap.
    destruct (lookup_lt_is_Some_2 x i Hi) as [xi ->].
    destruct (lookup_lt_is_Some_2 x j Hj) as [xj ->].
    destruct (lookup_lt_is_Some_2 y i ltac:(lia)) as [yi ->].
    destruct (lookup_lt_is_Some_2 z i ltac:(lia)) as [zi ->].
    cbn. ring.
  - intros i j Hi Hj. rewrite entry_tabulate2, decide_True by done.
    f_equal. ring.
Qed.

Lemma get_foreground_cov_symmetric_rank4_witness :
  ∃ F_cov,
    get_foreground_cov [1; 0] [0; 1] [0; 0] = Ok F_cov ∧
    is_matrix 2 2 F_cov ∧ symmetric F_cov ∧ rank_le 4 F_cov ∧
    ∀ i j, (i < 2)%nat → (j < 2)%nat →
      entry F_cov i j
      = Some (1000 * (1 * 1 + at1 [1; 0] i * at1 [1; 0] j
                      + at1 [0; 1] i * at1 [0; 1] j
                      + at1 [0; 0] i * at1 [0; 0] j)).
Proof.
  apply (get_foreground_cov_symmetric_rank4 [1; 0] [0; 1] [0; 0]); reflexivity.
Defined.

(** ** The model spectrum *)

Lemma for_each_app {S A : Type} (body : S → A → result S) (s : S) (xs ys : list A) :
  for_each body s (xs ++ ys) = for_each body s xs ≫= λ s', for_each body s' ys.
Proof.
  revert s. induction xs as [|x xs IH]; intros s; [done|].
  cbn. destruct (body s x); cbn; [apply IH|done].
Qed.

Lemma insert_tabulate {A : Type} (f : nat → A) (n k : nat) (a : A) :
  <[k:=a]> (f <$> seq 0 n) = (λ i, if decide (i = k) then a else f i) <$> seq 0 n.
Proof.
  apply list_eq. intros i. rewrite lookup_tabulate.
  destruct (decide (i = k)) as [->|Hik].
  - case_decide as Hk.
    + apply list_lookup_insert_eq. by rewrite length_fmap, length_seq.
    + apply lookup_ge_None. rewrite length_insert, length_fmap, length_seq. lia.
  - rewrite list_lookup_insert_ne by done. apply lookup_tabulate.
Qed.

Lemma truediv_real (a b : R) :
  b ≠ 0 → truediv a b = Ok (a / b).
Proof. intros Hb. cbn. by destruct (Req_dec_T b 0). Qed.

Lemma truediv_real_zero (a : R) : truediv a 0 = Raise ZeroDivisionError.
Proof. cbn. by destruct (Req_dec_T 0 0). Qed.

Lemma length_spectrum_upto (Q n : R) (lmax k : nat) :
  length (spectrum_upto Q n lmax k) = (lmax + 1)%nat.
Proof. unfold spectrum_upto. by rewrite length_fmap, length_seq. Qed.

Lemma getitem_spectrum_upto (Q n : R) (lmax k i : nat) :
  (i ≤ k + 2)%nat → (i ≤ lmax)%nat →
  getitem (spectrum_upto Q n lmax k) i = Ok (spectrum Q n i).
Proof.
  intros Hi Hl. unfold getitem, spectrum_upto. rewrite lookup_tabulate.
  rewrite decide_True by lia. by rewrite decide_True by lia.
Qed.

Lemma spectrum_upto_init (Q n : R) (lmax : nat) :
  (2 ≤ lmax)%nat →
  setitem (zeros (lmax + 1)) 2 (4 * PI / 5 * (Q * Q)) = Ok (spectrum_upto Q n lmax 0).
Proof.
  intros Hl. unfold setitem, zeros.
  rewrite decide_True by (rewrite length_replicate; lia). f_equal.
  rewrite replicate_tabulate, insert_tabulate. unfold spectrum_upto.
  apply list_fmap_ext. intros _ i _. cbn.
  destruct i as [|[|[|i]]]; repeat case_decide; done || lia.
Qed.

Lemma spectrum_upto_step (Q n : R) (lmax k : nat) :
  (k + 2 < lmax)%nat →
  IZR (2 * Z.of_nat (k + 2) + 5) - n ≠ 0 →
  C_ell_step n (spectrum_upto Q n lmax k) (k + 2) = Ok (spectrum_upto Q n lmax (S k)).
Proof.
  intros Hk Hden. unfold C_ell_step.
  change (of_int ?z - n)%S with (IZR z - n).
  rewrite truediv_real by done. cbn -[spectrum Z.mul Z.add truediv].
  rewrite getitem_spectrum_upto by lia.
  cbn -[spectrum Z.mul Z.add truediv].
  unfold setitem. rewrite decide_True by (rewrite length_spectrum_upto; lia).
  f_equal. unfold spectrum_upto. rewrite insert_tabulate.
  apply list_fmap_ext. intros _ i _. cbn -[spectrum Z.mul Z.add].
  destruct (decide (i = k + 2 + 1)%nat) as [->|Hi].
  - rewrite decide_True by lia.
    replace (k + 2 + 1)%nat with (S (S (S k))) by lia.
    replace (k + 2)%nat with (S (S k)) by lia. done.
  - repeat case_decide; done || lia.
Qed.

(** The loop of [get_C_ell_model], pass by pass. *)
Lemma spectrum_loop (Q n : R) (lmax k : nat) :
  (k + 2 ≤ lmax)%nat →
  (∀ l, (2 ≤ l < k + 2)%nat → IZR (2 * Z.of_nat l + 5) - n ≠ 0) →
  for_each (C_ell_step n) (spectrum_upto Q n lmax 0) (seq 2 k)
  = Ok (spectrum_upto Q n lmax k).
Proof.
  induction k as [|k IH]; intros Hk Hden; [done|].
  rewrite seq_S, for_each_app, IH by (done || lia || (intros; apply Hden; lia)).
  replace (2 + k)%nat with (k + 2)%nat by lia.
  cbn [mbind result_bind for_each].
  rewrite spectrum_upto_step; done || lia || (apply Hden; lia).
Qed.

Lemma get_C_ell_model_spectrum (Q n : R) (lmax : nat) :
  (2 ≤ lmax)%nat →
  (∀ l, (2 ≤ l < lmax)%nat → IZR (2 * Z.of_nat l + 5) - n ≠ 0) →
  get_C_ell_model Q n lmax = Ok (spectrum Q n <$> seq 0 (lmax + 1)).
Proof.
  intros Hl Hden. unfold get_C_ell_model.
  rewrite truediv_real by (cbn; lra). cbn -[setitem for_each seq zeros].
  rewrite (spectrum_upto_init Q n) by done. cbn -[for_each seq].
  rewrite spectrum_loop by (lia || (intros; apply Hden; lia)).
  f_equal. unfold spectrum_upto. apply list_fmap_ext.
  intros j i Hi. apply lookup_seq in Hi. rewrite decide_True; [done|lia].
Qed.

Lemma spectrum_succ (Q n : R) (l : nat) :
  (2 ≤ l)%nat →
  spectrum Q n (S l)
  = (IZR (2 * Z.of_nat l) + n - 1) / (IZR (2 * Z.of_nat l + 5) - n) * spectrum Q n l.
Proof. intros Hl. destruct l as [|[|l]]; [lia|lia|done]. Qed.

Lemma spectrum_scale (Q n : R) (l : nat) :
  spectrum Q n l = Q * Q * spectrum 1 n l.
Proof.
  induction l as [|l IH]; [cbn; ring|].
  destruct (decide (2 ≤ l)%nat) as [Hl|Hl].
  - rewrite !spectrum_succ, IH by done. ring.
  - destruct l as [|[|l]]; [cbn; ring|cbn; ring|lia].
Qed.

Lemma IZR_denominator (l : nat) : IZR (2 * Z.of_nat l + 5) = 2 * INR l + 5.
Proof. by rewrite plus_IZR, mult_IZR, <- INR_IZR_INZ. Qed.

Lemma IZR_numerator (l : nat) : IZR (2 * Z.of_nat l) = 2 * INR l.
Proof. by rewrite mult_IZR, <- INR_IZR_INZ. Qed.

(** C4.  For [Q > 0], [lmax >= 2] and a spectral index [n] for which no
    denominator [2 l + 5 - n], [2 <= l < lmax], is zero,
    [get_C_ell_model Q n lmax] returns a sequence of length [lmax + 1] with
    [C[0] = C[1] = 0], [C[2] = 4 pi / 5 * Q^2] and
    [C[l + 1] = C[l] * (2 l + n - 1) / (2 l + 5 - n)] for [2 <= l < lmax]
    (the loop of the embedding runs over [l = 2, 3, ..., lmax - 1] in this
    order).  For [lmax = 5], [Q = 1], [n = 1]: [C[2] = 4 pi / 5] and
    [C[3] / C[2] = 1 / 2]. *)
Theorem get_C_ell_model_recursion (Q n : R) (lmax : nat) :
  0 < Q → (2 ≤ lmax)%nat →
  (∀ l, (2 ≤ l < lmax)%nat → 2 * INR l + 5 - n ≠ 0) →
  (∃ C_ell,
      get_C_ell_model Q n lmax = Ok C_ell ∧
      length C_ell = (lmax + 1)%nat ∧
      C_ell !! 0%nat = Some 0 ∧ C_ell !! 1%nat = Some 0 ∧
      C_ell !! 2%nat = Some (4 * PI / 5 * Q ^ 2) ∧
      ∀ l, (2 ≤ l < lmax)%nat →
        ∃ c, C_ell !! l = Some c ∧
             C_ell !! (l + 1)%nat
             = Some (c * (2 * INR l + n - 1) / (2 * INR l + 5 - n))) ∧
  (∃ C_ell c2 c3,
      get_C_ell_model 1 1 5 = Ok C_ell ∧
      C_ell !! 2%nat = Some c2 ∧ C_ell !! 3%nat = Some c3 ∧
      c2 = 4 * PI / 5 ∧ c3 / c2 = 1 / 2).
Proof.
  intros _ Hl Hden. split.
  - eexists. split.
    { apply get_C_ell_model_spectrum; [done|].
      intros l Hlt. rewrite IZR_denominator. by apply Hden. }
    split; [by rewrite length_fmap, length_seq|].
    rewrite !lookup_tabulate. repeat (rewrite decide_True by lia).
    split; [done|]. split; [done|]. split; [cbn; f_equal; ring|].
    intros l Hlt. exists (spectrum Q n l).
    rewrite !lookup_tabulate. repeat (rewrite decide_True by lia).
    split; [done|]. replace (l + 1)%nat with (S l) by lia.
    rewrite spectrum_succ, IZR_denominator, IZR_numerator by lia.
    f_equal. field. by apply Hden.
  - exists (spectrum 1 1 <$> seq 0 (5 + 1)), (spectrum 1 1 2), (spectrum 1 1 3).
    split.
    { apply get_C_ell_model_spectrum; [lia|].
      intros l _. rewrite IZR_denominator. pose proof (pos_INR l). lra. }
    split; [done|]. split; [done|]. cbn. split; [ring|].
    rewrite IZR_numerator, IZR_denominator. simpl INR.
    pose proof PI_RGT_0. field. lra.
Qed.

Lemma get_C_ell_model_recursion_witness :
  (∃ C_ell,
      get_C_ell_model 1 1 5 = Ok C_ell ∧
      length C_ell = (5 + 1)%nat ∧
      C_ell !! 0%nat = Some 0 ∧ C_ell !! 1%nat = Some 0 ∧
      C_ell !! 2%nat = Some (4 * PI / 5 * 1 ^ 2) ∧
      ∀ l, (2 ≤ l < 5)%nat →
        ∃ c, C_ell !! l = Some c ∧
             C_ell !! (l + 1)%nat
             = Some (c * (2 * INR l + 1 - 1) / (2 * INR l + 5 - 1))) ∧
  (∃ C_ell c2 c3,
      get_C_ell_model 1 1 5 = Ok C_ell ∧
      C_ell !! 2%nat = Some c2 ∧ C_ell !! 3%nat = Some c3 ∧
      c2 = 4 * PI / 5 ∧ c3 / c2 = 1 / 2).
Proof.
  apply (get_C_ell_model_recursion 1 1 5); [lra|lia|].
  intros l _. pose proof (pos_INR l). lra.
Defined.

(** C10.  For [lmax >= 2] and a spectral index [n] for which no denominator
    [2 l + 5 - n], [2 <= l < lmax], is zero, the spectrum depends on [Q]
    through [Q^2] only: every entry of [get_C_ell_model Q n lmax] is [Q^2]
    times the entry of [get_C_ell_model 1 n lmax], and
    [get_C_ell_model (-Q) n lmax] is the same sequence. *)
Theorem get_C_ell_model_amplitude (Q n : R) (lmax : nat) :
  (2 ≤ lmax)%nat →
  (∀ l, (2 ≤ l < lmax)%nat → 2 * INR l + 5 - n ≠ 0) →
  ∃ C_Q C_1,
    get_C_ell_model Q n lmax = Ok C_Q ∧
    get_C_ell_model 1 n lmax = Ok C_1 ∧
    C_Q = (λ c, Q ^ 2 * c) <$> C_1 ∧
    get_C_ell_model (- Q) n lmax = Ok C_Q.
Proof.
  intros Hl Hden.
  assert (∀ l, (2 ≤ l < lmax)%nat → IZR (2 * Z.of_nat l + 5) - n ≠ 0) as Hden'.
  { intros l Hlt. rewrite IZR_denominator. by apply Hden. }
  exists (spectrum Q n <$> seq 0 (lmax + 1)), (spectrum 1 n <$> seq 0 (lmax + 1)).
  rewrite !get_C_ell_model_spectrum by done. repeat split.
  - rewrite <- list_fmap_compose. apply list_fmap_ext. intros _ l _. cbn.
    rewrite spectrum_scale. ring.
  - f_equal. apply list_fmap_ext. intros _ l _.
    rewrite (spectrum_scale (- Q)), (spectrum_scale Q). ring.
Qed.

Lemma get_C_ell_model_amplitude_witness :
  ∃ C_Q C_1,
    get_C_ell_model 3 1 4 = Ok C_Q ∧
    get_C_ell_model 1 1 4 = Ok C_1 ∧
    C_Q = (λ c, 3 ^ 2 * c) <$> C_1 ∧
    get_C_ell_model (- 3) 1 4 = Ok C_Q.
Proof.
  apply (get_C_ell_model_amplitude 3 1 4); [lia|].
  intros l _. pose proof (pos_INR l). lra.
Defined.

(** Python scalars: a zero denominator stops the loop. *)
Lemma C_ell_step_zero_division (n : R) (C_ell : list R) (l : nat) :
  IZR (2 * Z.of_nat l + 5) - n = 0 →
  C_ell_step n C_ell l = Raise ZeroDivisionError.
Proof.
  intros Hden. unfold C_ell_step.
  change (of_int ?z - n)%S with (IZR z - n). by rewrite Hden, truediv_real_zero.
Qed.

Lemma spectrum_loop_cases (Q n : R) (lmax k : nat) :
  (k + 2 ≤ lmax)%nat →
  let loop := for_each (C_ell_step n) (spectrum_upto Q n lmax 0) (seq 2 k) in
  (loop = Ok (spectrum_upto Q n lmax k) ∧
   ∀ l, (2 ≤ l < k + 2)%nat → IZR (2 * Z.of_nat l + 5) - n ≠ 0) ∨
  (loop = Raise ZeroDivisionError ∧
   ∃ l, (2 ≤ l < k + 2)%nat ∧ IZR (2 * Z.of_nat l + 5) - n = 0).
Proof.
  induction k as [|k IH]; intros Hk; cbn zeta.
  - left. split; [done|]. intros l Hl. lia.
  - rewrite seq_S, for_each_app.
    destruct IH as [[-> Hnz]|[-> (l & Hl & Hz)]]; [lia| |].
    + replace (2 + k)%nat with (k + 2)%nat by lia.
      cbn [mbind result_bind for_each].
      destruct (Req_dec_T (IZR (2 * Z.of_nat (k + 2) + 5) - n) 0) as [Hz|Hz].
      * right. rewrite C_ell_step_zero_division by done.
        split; [done|]. exists (k + 2)%nat. split; [lia|done].
      * left. rewrite spectrum_upto_step by (done || lia).
        split; [done|]. intros l Hl.
        destruct (decide (l = k + 2)%nat) as [->|]; [done|apply Hnz; lia].
    + right. split; [done|]. exists l. split; [lia|done].
Qed.

(** C5, as the code has it for Python scalars.  For [lmax >= 2] and a
    spectral index [n], a Python [int] or [float], such that the denominator
    [2 l + 5 - n] is zero for some [l] in [2 .. lmax - 1], the division in
    the loop of [get_C_ell_model Q n lmax] raises [ZeroDivisionError]: the
    call fails and returns no sequence. *)
Theorem get_C_ell_model_zero_division (Q n : R) (lmax : nat) :
  (2 ≤ lmax)%nat →
  (∃ l, (2 ≤ l < lmax)%nat ∧ 2 * INR l + 5 - n = 0) →
  get_C_ell_model Q n lmax = Raise ZeroDivisionError.
Proof.
  intros Hl (l & Hlt & Hz). unfold get_C_ell_model.
  rewrite truediv_real by (cbn; lra). cbn -[setitem for_each seq zeros].
  rewrite (spectrum_upto_init Q n) by done. cbn -[for_each seq].
  destruct (spectrum_loop_cases Q n lmax (lmax - 2)) as [[_ Hnz]|[-> _]];
    [lia| |done].
  exfalso. apply (Hnz l); [lia|]. by rewrite IZR_denominator.
Qed.

Lemma get_C_ell_model_zero_division_witness :
  get_C_ell_model (T:=R) 1 9 3 = Raise ZeroDivisionError.
Proof.
  apply (get_C_ell_model_zero_division 1 9 3); [lia|].
  exists 2%nat. split; [lia|]. simpl INR. lra.
Defined.

(** C5, as stated, fails for a NumPy scalar.  With [Q = 1], [n = 9] and
    [lmax = 3] in binary64 the denominator [2 * 2 + 5 - n] is zero, no
    exception is raised, and the sequence that is returned ends in an
    infinity. *)
Lemma get_C_ell_model_float64_returns_infinity :
  PrimFloat.sub (float_of_Z (2 * 2 + 5)) (float_of_Z 9) = float_of_Z 0 ∧
  get_C_ell_model (float_of_Z 1) (float_of_Z 9) 3
  = Ok [float_of_Z 0; float_of_Z 0;
        PrimFloat.div (PrimFloat.mul (float_of_Z 4) float64_pi) (float_of_Z 5);
        PrimFloat.infinity] ∧
  is_finite PrimFloat.infinity = false.
Proof. vm_compute. done. Qed.

(** X1.  For [lmax = 0] and [lmax = 1], the natural numbers below [2], the
    array [zeros(lmax + 1)] has one or two entries and no index [2]: the
    quadrupole assignment of [get_C_ell_model] raises [IndexError] (real
    arithmetic).  A negative [lmax] is outside [lmax : nat]. *)
Theorem get_C_ell_model_short (Q n : R) (lmax : nat) :
  (lmax < 2)%nat → get_C_ell_model Q n lmax = Raise IndexError.
Proof.
  intros Hl. unfold get_C_ell_model.
  rewrite truediv_real by (cbn; lra). cbn [mbind result_bind].
  unfold setitem, zeros. rewrite decide_False; [done|].
  rewrite length_replicate. lia.
Qed.

Lemma get_C_ell_model_short_witness :
  get_C_ell_model (T:=R) 1 1 1 = Raise IndexError.
Proof. apply (get_C_ell_model_short 1 1 1). lia. Defined.

(** ** The Legendre tensor *)

Lemma tabulate2_ext {A : Type} (f g : nat → nat → A) (n m : nat) :
  (∀ i j, (i < n)%nat → (j < m)%nat → f i j = g i j) →
  tabulate2 n m f = tabulate2 n m g.
Proof.
  intros Hfg. unfold tabulate2. apply list_fmap_ext. intros ? i Hi.
  apply lookup_seq in Hi as [-> Hi]. apply list_fmap_ext. intros ? j Hj.
  apply lookup_seq in Hj as [-> Hj]. by apply Hfg.
Qed.

Lemma tabulate3_ext {A : Type} (f g : nat → nat → nat → A) (n m k : nat) :
  (∀ i j l, (i < n)%nat → (j < m)%nat → (l < k)%nat → f i j l = g i j l) →
  tabulate3 n m k f = tabulate3 n m k g.
Proof.
  intros Hfg. unfold tabulate3. apply list_fmap_ext. intros ? i Hi.
  apply lookup_seq in Hi as [-> Hi]. apply tabulate2_ext. auto.
Qed.

Lemma zeros3_tabulate (n m k : nat) :
  zeros3 (T:=R) n m k = tabulate3 n m k (λ _ _ _, 0).
Proof.
  unfold zeros3, zeros, tabulate3, tabulate2. by rewrite !replicate_tabulate.
Qed.

Lemma set_slice_tabulate (f : nat → nat → nat → R) (g : nat → nat → R)
    (n m k l : nat) :
  (l < k)%nat →
  set_slice (tabulate3 n m k f) l (tabulate2 n m g)
  = Ok (tabulate3 n m k (λ i j l', if decide (l' = l) then g i j else f i j l')).
Proof.
  intros Hl. unfold set_slice. rewrite decide_True, decide_True.
  - f_equal. unfold tabulate3, tabulate2. rewrite zip_with_tabulate.
    apply list_fmap_ext. intros _ i _. rewrite zip_with_tabulate.
    apply list_fmap_ext. intros _ j _. apply insert_tabulate.
  - unfold tabulate3, tabulate2.
    apply Forall2_fmap, Forall_Forall2_diag, Forall_forall. intros i _.
    by rewrite !length_fmap.
  - unfold tabulate3, tabulate2.
    apply Forall_fmap, Forall_forall. intros i _.
    apply Forall_fmap, Forall_forall. intros j _. cbn.
    by rewrite length_fmap, length_seq.
Qed.

Lemma transpose_xyz (x y z : list R) :
  length y = length x → length z = length x →
  transpose [x; y; z] = (λ i, [at1 x i; at1 y i; at1 z i]) <$> seq 0 (length x).
Proof. done. Qed.

Lemma vstack_xyz (x y z : list R) :
  length y = length x → length z = length x →
  vstack [x; y; z] = Ok [x; y; z].
Proof.
  intros Hy Hz. unfold vstack. rewrite decide_True; [done|].
  repeat constructor; done.
Qed.

(** [costheta] of [get_legendre_mat]: the matrix product of [pos_vec] with
    its transpose. *)
Lemma costheta_tabulate (x y z : list R) :
  length y = length x → length z = length x →
  let pos_vec := transpose [x; y; z] in
  dot pos_vec (transpose pos_vec)
  = Ok (tabulate2 (length x) (length x)
          (λ i j, vdot [at1 x i; at1 y i; at1 z i] [at1 x j; at1 y j; at1 z j])).
Proof.
  intros Hy Hz pos_vec. subst pos_vec. rewrite transpose_xyz by done.
  destruct (length x) as [|N] eqn:HN; [done|].
  set (rows := (λ i, [at1 x i; at1 y i; at1 z i]) <$> seq 0 (S N)).
  assert (transpose rows = [x; y; z]) as Ht.
  { unfold transpose, rows.
    change (length (default [] (head _))) with 3%nat.
    change (seq 0 3) with [0; 1; 2]%nat. cbn [fmap list_fmap].
    rewrite <- !list_fmap_compose.
    f_equal; [|f_equal; [|f_equal]].
    - rewrite <- HN. symmetry. apply vector_tabulate.
    - rewrite <- Hy. symmetry. apply vector_tabulate.
    - rewrite <- Hz. symmetry. apply vector_tabulate. }
  unfold dot. rewrite Ht, decide_True.
  - f_equal. unfold rows at 1. rewrite <- list_fmap_compose.
    rewrite transpose_xyz, HN by congruence. unfold tabulate2.
    apply list_fmap_ext. intros _ i _. cbn -[seq vdot].
    by rewrite <- list_fmap_compose.
  - apply Forall_fmap, Forall_forall. done.
Qed.

Lemma getitem_legendre_coeff (lmax l : nat) :
  (l ≤ lmax)%nat →
  getitem (get_legendre_coeff (T:=R) lmax) l = Ok (legendre l).
Proof.
  intros Hl. unfold getitem, get_legendre_coeff.
  rewrite lookup_tabulate. by rewrite decide_True by lia.
Qed.

(** The loop of [get_legendre_mat], slice by slice. *)
Lemma legendre_loop (c : nat → nat → R) (N lmax k : nat) :
  (k ≤ lmax + 1)%nat →
  for_each
    (λ p l, getitem (get_legendre_coeff lmax) l
            ≫= λ P, set_slice p l (map_entries P (tabulate2 N N c)))
    (legendre_upto c N lmax 0) (seq 0 k)
  = Ok (legendre_upto c N lmax k).
Proof.
  induction k as [|k IH]; intros Hk; [done|].
  rewrite seq_S, for_each_app, IH by lia.
  cbn [mbind result_bind for_each Nat.add].
  rewrite getitem_legendre_coeff by lia. cbn [mbind result_bind].
  rewrite map_entries_tabulate2. unfold legendre_upto.
  rewrite set_slice_tabulate by lia. cbn [mbind result_bind]. f_equal.
  apply tabulate3_ext. intros i j l _ _ _.
  repeat case_decide; subst; done || lia.
Qed.

Lemma get_legendre_mat_tabulate (lmax : nat) (x y z : list R) :
  length y = length x → length z = length x →
  get_legendre_mat lmax x y z
  = Ok (tabulate3 (length x) (length x) (lmax + 1)
          (λ i j l, legendre l
             (vdot [at1 x i; at1 y i; at1 z i] [at1 x j; at1 y j; at1 z j]))).
Proof.
  intros Hy Hz. unfold get_legendre_mat.
  rewrite vstack_xyz by done. cbn [mbind result_bind].
  rewrite costheta_tabulate by done. cbn [mbind result_bind].
  rewrite zeros3_tabulate.
  set (c := λ i j, vdot _ _).
  change (tabulate3 _ _ _ (λ _ _ _, 0)) with (legendre_upto c (length x) lmax 0).
  rewrite legendre_loop by done. f_equal.
  apply tabulate3_ext. intros i j l _ _ Hl. by rewrite decide_True.
Qed.

Lemma legendre_pair_one (l : nat) : legendre_pair (T:=R) l 1 = (1, 1).
Proof.
  induction l as [|l IH]; [done|].
  cbn [legendre_pair]. rewrite IH. f_equal.
  change ((IZR (2 * Z.of_nat l + 3) * 1 * 1 - IZR (Z.of_nat l + 1) * 1)
          / IZR (Z.of_nat l + 2) = 1).
  rewrite !plus_IZR, mult_IZR, <- INR_IZR_INZ.
  pose proof (pos_INR l). field. lra.
Qed.

Lemma slice_tabulate3 (f : nat → nat → nat → R) (n m k l : nat) :
  (l < k)%nat → slice (tabulate3 n m k f) l = tabulate2 n m (λ i j, f i j l).
Proof.
  intros Hl. unfold slice, tabulate3, tabulate2.
  rewrite <- list_fmap_compose. apply list_fmap_ext. intros _ i _. cbn.
  rewrite <- list_fmap_compose. apply list_fmap_ext. intros _ j _. cbn.
  unfold at1. rewrite lookup_tabulate. by rewrite decide_True.
Qed.

(** C9.  For [lmax >= 1] and coordinate sequences of equal length [N] that
    form unit vectors, the tensor returned by [get_legendre_mat] has the
    all-ones matrix as slice [0], the matrix of pairwise dot products as
    slice [1], and every slice [l <= lmax] is symmetric with ones on its
    diagonal. *)
Theorem get_legendre_mat_slices (lmax : nat) (x y z : list R) :
  (1 ≤ lmax)%nat →
  length y = length x → length z = length x →
  (∀ i, (i < length x)%nat →
        at1 x i * at1 x i + at1 y i * at1 y i + at1 z i * at1 z i = 1) →
  ∃ p_ell_ij,
    get_legendre_mat lmax x y z = Ok p_ell_ij ∧
    slice p_ell_ij 0 = ones (length x) (length x) ∧
    slice p_ell_ij 1 = cosine_matrix x y z ∧
    ∀ l, (l ≤ lmax)%nat →
      is_matrix (length x) (length x) (slice p_ell_ij l) ∧
      symmetric (slice p_ell_ij l) ∧
      diagonal (slice p_ell_ij l) = replicate (length x) 1.
Proof.
  intros Hlmax Hy Hz Hunit. eexists.
  split; [by apply get_legendre_mat_tabulate|].
  split; [|split].
  - rewrite slice_tabulate3 by lia. by rewrite ones_tabulate.
  - rewrite slice_tabulate3 by lia. unfold cosine_matrix.
    apply tabulate2_ext. intros i j _ _. cbn. ring.
  - intros l Hl. rewrite slice_tabulate3 by lia.
    split; [apply is_matrix_tabulate2|]. split.
    + apply symmetric_tabulate2. intros i j _ _. f_equal. cbn. ring.
    + rewrite replicate_tabulate. apply list_eq. intros i.
      unfold diagonal, tabulate2.
      rewrite list_lookup_imap, !lookup_tabulate.
      destruct (decide (i < length x)%nat) as [Hi|Hi]; cbn; [|done].
      rewrite lookup_tabulate, decide_True by done. cbn.
      match goal with |- context [legendre l ?c] =>
        replace c with 1 by (rewrite <- (Hunit i Hi); cbn; ring) end.
      unfold legendre. by rewrite legendre_pair_one.
Qed.

Lemma get_legendre_mat_slices_witness :
  ∃ p_ell_ij,
    get_legendre_mat 2 [1; 0] [0; 1] [0; 0] = Ok p_ell_ij ∧
    slice p_ell_ij 0 = ones 2 2 ∧
    slice p_ell_ij 1 = cosine_matrix [1; 0] [0; 1] [0; 0] ∧
    ∀ l, (l ≤ 2)%nat →
      is_matrix 2 2 (slice p_ell_ij l) ∧
      symmetric (slice p_ell_ij l) ∧
      diagonal (slice p_ell_ij l) = replicate 2 1.
Proof.
  apply (get_legendre_mat_slices 2 [1; 0] [0; 1] [0; 0]); [lia|done|done|].
  intros [|[|i]] Hi; cbn in *; unfold at1; cbn; lra || lia.
Defined.

(** ** The signal covariance *)

Section Elementwise3.
Context {T : Type} `{Scalar T}.

Lemma ew1_zip (op : T → T → T) (u v : list T) :
  length u = length v → ew1 op u v = Ok (zip_with op u v).
Proof.
  intros Hlen. unfold ew1. apply broadcast_zip; [done|].
  by apply Forall2_true.
Qed.

(** A one-dimensional array against the last axis of a rank 3 array. *)
Lemma ew3_last_axis (op : T → T → T) (w : list T) (p : list (list (list T))) :
  Forall (Forall (λ P, length P = length w)) p →
  ew3 op [[w]] p
  = Ok ((λ row : list (list T), (λ P, zip_with op w P) <$> row) <$> p).
Proof.
  intros Hp. unfold ew3. rewrite broadcast_stretch_l.
  apply mapM_Ok. eapply Forall_impl; [apply Hp|]. intros row Hrow. cbn in *.
  unfold ew2. rewrite broadcast_stretch_l.
  apply mapM_Ok. eapply Forall_impl; [apply Hrow|]. intros P HP. cbn in *.
  by apply ew1_zip.
Qed.

Lemma length_linspace (start stop : T) (num : nat) :
  length (linspace start stop num) = num.
Proof.
  destruct num as [|[|num]]; [done|done|].
  unfold linspace. by rewrite length_insert, length_fmap, length_seq.
Qed.
End Elementwise3.

(** What [get_signal_cov] computes on arrays of matching lengths: the
    weight of multipole [l] is built from sample [l] of
    [linspace(0, lmax + 1, lmax + 1)]. *)
Lemma get_signal_cov_weights (C_ell beam pixwin : list R)
    (p_ell_ij : list (list (list R))) :
  length beam = length C_ell → length pixwin = length C_ell →
  Forall (Forall (λ P, length P = length C_ell)) p_ell_ij →
  let ell := linspace 0 (INR (length C_ell)) (length C_ell) in
  let w := zip_with Rmult
             (zip_with Rmult
                (zip_with Rmult ((λ a, 2 * a - 1) <$> ell) ((λ b, b * b) <$> beam))
                ((λ b, b * b) <$> pixwin))
             C_ell in
  get_signal_cov C_ell beam pixwin p_ell_ij
  = Ok ((λ row : list (list R),
           (λ P, np_sum (zip_with Rmult w P) / (4 * PI)) <$> row) <$> p_ell_ij).
Proof.
  intros Hb Hp HP ell w. unfold get_signal_cov.
  change (of_int (Z.of_nat (length C_ell))) with (IZR (Z.of_nat (length C_ell))).
  rewrite <- INR_IZR_INZ.
  change (linspace (of_int 0) _ _) with ell.
  assert (length ell = length C_ell) as Hell by apply length_linspace.
  rewrite ew1_zip by (by rewrite !length_fmap, Hell, Hb).
  cbn [mbind result_bind].
  rewrite ew1_zip
    by (by rewrite length_zip_with, !length_fmap, Hell, Hb, Hp, Nat.min_id).
  cbn [mbind result_bind].
  rewrite ew1_zip
    by (rewrite !length_zip_with, !length_fmap, Hell, Hb, Hp; lia).
  cbn [mbind result_bind].
  rewrite ew3_last_axis.
  - cbn [mbind result_bind]. f_equal. unfold sum_axis2, map_entries.
    rewrite <- !list_fmap_compose. apply list_fmap_ext. intros _ row _. cbn.
    by rewrite <- !list_fmap_compose.
  - eapply Forall_impl; [apply HP|]. intros row Hrow. cbn in *.
    eapply Forall_impl; [apply Hrow|]. intros P HPl. cbn in *.
    rewrite !length_zip_with, !length_fmap, Hell, Hb, Hp. lia.
Qed.

(** The sample points of [get_signal_cov] for [lmax = 3] are not the
    multipoles [0, 1, 2, 3]. *)
Lemma linspace_0_4_4 : linspace (T:=R) 0 4 4 = [0; 4 / 3; 8 / 3; 4].
Proof.
  unfold linspace. cbn. repeat f_equal; field.
Qed.

(** C2 fails on the code.  For [lmax = 3], a spectrum with [C[2] = 1] only,
    unit beam and pixel window and one pixel with [P_l = 1], the code
    weights the quadrupole by [2 * (8 / 3) - 1 = 13 / 3] where the formula
    of the specification has [2 * 2 + 1 = 5]. *)
Theorem get_signal_cov_quadrupole_weight :
  get_signal_cov [0; 0; 1; 0] [1; 1; 1; 1] [1; 1; 1; 1] [[[1; 1; 1; 1]]]
  = Ok [[13 / 3 / (4 * PI)]] ∧
  signal_cov_formula [0; 0; 1; 0] [1; 1; 1; 1] [1; 1; 1; 1] [[[1; 1; 1; 1]]]
  = [[5 / (4 * PI)]] ∧
  13 / 3 / (4 * PI) ≠ 5 / (4 * PI).
Proof.
  pose proof PI_RGT_0 as Hpi. split; [|split].
  - rewrite get_signal_cov_weights; [|done|done|repeat constructor].
    simpl length. simpl INR. replace (1 + 1 + 1 + 1) with 4 by ring.
    rewrite linspace_0_4_4. cbn. repeat f_equal. field; lra.
  - unfold signal_cov_formula. cbn. unfold at1. cbn. repeat f_equal. field; lra.
  - intros Heq. apply (f_equal (Rmult (4 * PI))) in Heq.
    field_simplify in Heq; lra.
Qed.

(** ** Inner products and quadratic forms *)

Lemma vdot_cons (a b : R) (u v : list R) : vdot (a :: u) (b :: v) = a * b + vdot u v.
Proof. done. Qed.

Lemma vdot_nil_l (v : list R) : vdot [] v = 0.
Proof. done. Qed.

Lemma vdot_nil_r (u : list R) : vdot u [] = 0.
Proof. by destruct u. Qed.

Lemma vdot_comm (u v : list R) : vdot u v = vdot v u.
Proof.
  revert v. induction u as [|a u IH]; intros [|b v]; try done.
  rewrite !vdot_cons, IH. ring.
Qed.

Lemma vdot_scale (r : R) (b x : list R) :
  vdot ((λ v, v / r) <$> b) x = vdot b x / r.
Proof.
  revert x. induction b as [|a b IH]; intros [|x0 x]; cbn [fmap list_fmap];
    rewrite ?vdot_nil_r, ?vdot_cons, ?IH; unfold vdot; cbn; lra.
Qed.

Lemma vdot_zero_l (x y : list R) : Forall (λ a, a = 0) x → vdot x y = 0.
Proof.
  intros Hx. revert y. induction Hx as [|a x -> _ IH]; intros [|b y]; try done.
  rewrite vdot_cons, IH. ring.
Qed.

Lemma vdot_minus (p q x : list R) :
  length p = length q →
  vdot (zip_with Rminus p q) x = vdot p x - vdot q x.
Proof.
  revert q x. induction p as [|a p IH]; intros [|b q] [|x0 x] Hlen;
    try done; cbn [zip_with]; rewrite ?vdot_nil_r, ?vdot_cons;
    try (unfold vdot; cbn; lra).
  rewrite IH by (cbn in Hlen; lia). ring.
Qed.

Lemma quad_outer (y u w x : list R) :
  vdot y (matvec (outer u w) x) = vdot y u * vdot w x.
Proof.
  revert y. induction u as [|a u IH]; intros [|b y]; cbn [outer matvec fmap list_fmap];
    rewrite ?vdot_nil_r; try (unfold vdot; cbn; lra).
  rewrite !vdot_cons. unfold outer, matvec in IH. rewrite IH.
  replace (vdot ((λ b0, a * b0)%S <$> w) x) with (a * vdot w x); [ring|].
  clear. revert x. induction w as [|c w IH]; intros [|x0 x]; cbn [fmap list_fmap];
    rewrite ?vdot_nil_r, ?vdot_cons, <- ?IH; unfold vdot; cbn; lra.
Qed.

Lemma quad_minus (y x : list R) (A B : list (list R)) :
  Forall2 (λ p q, length p = length q) A B →
  vdot y (matvec (zip_with (zip_with Rminus) A B) x)
  = vdot y (matvec A x) - vdot y (matvec B x).
Proof.
  intros HAB. revert y. induction HAB as [|p q A B Hpq _ IH]; intros [|y0 y];
    cbn [zip_with matvec fmap list_fmap]; rewrite ?vdot_nil_r;
    try (unfold vdot; cbn; lra).
  rewrite !vdot_cons. unfold matvec in IH. rewrite IH, vdot_minus by done. ring.
Qed.

(** Splitting off the first column of a block of rows. *)
Lemma quad_first_column (y : list R) (rest : list (list R)) (x0 : R) (x' : list R) :
  vdot y (matvec rest (x0 :: x'))
  = x0 * vdot y ((λ row, default 0 (head row)) <$> rest)
    + vdot y (matvec (tail <$> rest) x').
Proof.
  revert y. induction rest as [|row rest IH]; intros [|y0 y];
    cbn [matvec fmap list_fmap]; rewrite ?vdot_nil_r; try (unfold vdot; cbn; lra).
  rewrite !vdot_cons. unfold matvec in IH. rewrite IH.
  destruct row as [|c row]; cbn [head tail default]; unfold Datatypes.id;
    rewrite ?vdot_cons, ?vdot_nil_l; ring.
Qed.

(** ** Cholesky factorisation and positive definiteness *)

Lemma length_tail {A : Type} (l : list A) : length (tail l) = (length l - 1)%nat.
Proof. destruct l; cbn; lia. Qed.

Lemma entry_cons_cons {A : Type} (a : A) (b : list A) (rest : list (list A)) (i j : nat) :
  entry ((a :: b) :: rest) (S i) (S j) = entry (tail <$> rest) i j.
Proof.
  unfold entry. cbn. rewrite list_lookup_fmap.
  destruct (rest !! i) as [row|]; cbn; [|done]. by rewrite lookup_tail.
Qed.

Lemma entry_zip_with2 {A : Type} (f : A → A → A) (M N : list (list A)) (i j : nat) :
  entry (zip_with (zip_with f) M N) i j
  = entry M i j ≫= λ a, entry N i j ≫= λ b, Some (f a b).
Proof.
  unfold entry. rewrite lookup_zip_with.
  destruct (M !! i) as [p|]; cbn; [|done].
  destruct (N !! i) as [q|]; cbn.
  - rewrite lookup_zip_with. done.
  - by destruct (p !! j).
Qed.

Lemma entry_outer (u v : list R) (i j : nat) :
  entry (outer u v) i j = u !! i ≫= λ a, v !! j ≫= λ b, Some (a * b).
Proof.
  unfold entry, outer. rewrite list_lookup_fmap.
  destruct (u !! i) as [a|]; cbn; [|done]. rewrite list_lookup_fmap.
  by destruct (v !! j).
Qed.

(** The trailing block of one elimination step is again a symmetric square
    matrix. *)
Lemma schur_symmetric (a : R) (b u : list R) (rest : list (list R)) :
  symmetric ((a :: b) :: rest) →
  symmetric (zip_with (zip_with Rminus) (tail <$> rest) (outer u u)).
Proof.
  intros Hs i j. rewrite !entry_zip_with2, <- !(entry_cons_cons a b), !entry_outer.
  rewrite (Hs (S i) (S j)).
  destruct (entry _ (S j) (S i)); cbn; [|done].
  destruct (u !! i), (u !! j); cbn; try done. f_equal. ring.
Qed.

Lemma schur_is_matrix (n : nat) (u : list R) (rest : list (list R)) :
  is_matrix n (S n) rest → length u = n →
  is_matrix n n (zip_with (zip_with Rminus) (tail <$> rest) (outer u u)).
Proof.
  intros [Hlen Hrows] Hu. split.
  - unfold outer. rewrite length_zip_with, !length_fmap. lia.
  - apply Forall_forall. intros row Hrow.
    apply list_elem_of_lookup in Hrow as [i Hi].
    rewrite lookup_zip_with in Hi.
    rewrite list_lookup_fmap in Hi.
    destruct (rest !! i) as [p|] eqn:Hp; cbn in Hi; [|done].
    unfold outer in Hi. rewrite list_lookup_fmap in Hi.
    destruct (u !! i) as [c|]; cbn in Hi; [|done]. injection Hi as <-.
    rewrite length_zip_with, length_tail, length_fmap.
    rewrite Forall_forall in Hrows.
    rewrite (Hrows p) by (eapply list_elem_of_lookup_2; done). lia.
Qed.

Lemma schur_shapes (n : nat) (u : list R) (rest : list (list R)) :
  is_matrix n (S n) rest → length u = n →
  Forall2 (λ p q, length p = length q) (tail <$> rest) (outer u u).
Proof.
  intros [Hlen Hrows] Hu. apply Forall2_same_length_lookup_2.
  - unfold outer. rewrite !length_fmap. lia.
  - intros i p q Hp Hq. unfold outer in Hq.
    rewrite list_lookup_fmap in Hp. rewrite list_lookup_fmap in Hq.
    destruct (rest !! i) as [p'|] eqn:Hp'; cbn in Hp; [|done].
    destruct (u !! i) as [c|]; cbn in Hq; [|done].
    injection Hp as <-. injection Hq as <-.
    rewrite length_tail, length_fmap. rewrite Forall_forall in Hrows.
    rewrite (Hrows p') by (eapply list_elem_of_lookup_2; done). lia.
Qed.

(** In a symmetric matrix the first column below the diagonal is the first
    row to the right of it. *)
Lemma symmetric_first_column (n : nat) (a : R) (b : list R) (rest : list (list R)) :
  is_matrix (S n) (S n) ((a :: b) :: rest) →
  symmetric ((a :: b) :: rest) →
  (λ row, default 0 (head row)) <$> rest = b.
Proof.
  intros [Hlen Hrows] Hs. apply Forall_cons in Hrows as [Hb Hrows].
  cbn in Hlen, Hb. apply list_eq. intros i.
  assert (rest !! i ≫= (λ row : list R, row !! 0%nat) = b !! i) as Hi
    by exact (Hs (S i) 0%nat).
  rewrite list_lookup_fmap, <- Hi.
  destruct (rest !! i) as [row|] eqn:Hrow; cbn; [|done].
  rewrite Forall_forall in Hrows.
  specialize (Hrows row ltac:(eapply list_elem_of_lookup_2; done)).
  by destruct row.
Qed.

Lemma nonzero_or_zero (x : list R) :
  Forall (λ a, a = 0) x ∨ Exists (λ a, a ≠ 0) x.
Proof.
  induction x as [|a x [IH|IH]]; [by left| |right; by constructor].
  destruct (Req_dec_T a 0) as [->|Ha]; [left|right]; by constructor.
Qed.

(** One elimination step preserves the quadratic form:
    [x^T C x = (r x0 + u . x')^2 + x'^T (A - u u^T) x']. *)
Lemma quad_form_step (n : nat) (a x0 : R) (b x' : list R) (rest : list (list R)) :
  is_matrix (S n) (S n) ((a :: b) :: rest) →
  symmetric ((a :: b) :: rest) →
  0 < a →
  let r := sqrt a in
  let u := (λ v, v / r) <$> b in
  quad_form ((a :: b) :: rest) (x0 :: x')
  = (r * x0 + vdot u x') ^ 2
    + quad_form (zip_with (zip_with Rminus) (tail <$> rest) (outer u u)) x'.
Proof.
  intros HC Hs Ha r u.
  assert (r * r = a) as Hr by (apply sqrt_sqrt; lra).
  assert (r ≠ 0) as Hr0 by (intros H0; rewrite H0 in Hr; lra).
  unfold quad_form. cbn [matvec fmap list_fmap]. rewrite !vdot_cons.
  fold (matvec rest (x0 :: x')). rewrite quad_first_column.
  rewrite (symmetric_first_column n a b rest HC Hs).
  fold (matvec (zip_with (zip_with Rminus) (tail <$> rest) (outer u u)) x').
  rewrite quad_minus, quad_outer.
  - subst u. rewrite (vdot_comm x' (_ <$> b)), !vdot_scale, (vdot_comm x' b).
    rewrite <- Hr. field. done.
  - destruct HC as [Hlen Hrows]. apply Forall_cons in Hrows as [Hb Hrows].
    cbn in Hlen, Hb. apply (schur_shapes n).
    + split; [lia|done].
    + subst u. rewrite length_fmap. lia.
Qed.

(** The factorisation of a square matrix either succeeds, and then a
    symmetric input is positive definite, or it stops at a pivot that is not
    positive. *)
Lemma potrf_upper_cases (n : nat) (A : list (list R)) :
  is_matrix n n A →
  (∃ U, potrf_upper n A = Ok U ∧ (symmetric A → positive_definite A)) ∨
  potrf_upper n A = Raise LinAlgError.
Proof.
  revert A. induction n as [|n IH]; intros A HA.
  { left. exists []. split; [done|]. intros _ x Hx Hnz.
    destruct HA as [HA _]. rewrite HA in Hx.
    destruct x; [|done]. by apply Exists_nil in Hnz. }
  pose proof HA as [Hlen Hrows].
  destruct A as [|[|a b] rest]; [done| |].
  { apply Forall_cons in Hrows as [? _]. done. }
  cbn [potrf_upper]. destruct (Rle_dec a 0) as [Ha|Ha]; [by right|].
  apply Rnot_le_lt in Ha.
  set (r := sqrt a). set (u := (λ v, v / r) <$> b).
  set (A' := zip_with (zip_with Rminus) (tail <$> rest) (outer u u)).
  apply Forall_cons in Hrows as [Hb Hrows]. cbn in Hlen, Hb.
  assert (is_matrix n n A') as HA'.
  { apply schur_is_matrix; [split; [lia|done]|].
    subst u. rewrite length_fmap. lia. }
  destruct (IH A' HA') as [(U' & -> & Hpd)| ->]; [|by right].
  left. eexists. split; [done|].
  intros Hs x Hx Hnz. destruct x as [|x0 x']; [done|].
  cbn in Hx. rewrite (quad_form_step n) by done. fold r u A'.
  pose proof (schur_symmetric a b u rest Hs) as Hs'.
  destruct (nonzero_or_zero x') as [Hz|Hnz'].
  - apply Exists_cons in Hnz as [Hx0|Hnz]; cycle 1.
    { exfalso. apply Exists_exists in Hnz as (c & Hc & Hc0).
      rewrite Forall_forall in Hz. by apply Hc0, Hz. }
    unfold quad_form. rewrite (vdot_zero_l x') by done.
    rewrite (vdot_comm u), (vdot_zero_l x') by done.
    assert (r * r = a) as Hr by (apply sqrt_sqrt; lra).
    replace ((r * x0 + 0) ^ 2 + 0) with (a * (x0 * x0)) by (rewrite <- Hr; ring).
    apply Rmult_lt_0_compat; [done|]. nra.
  - assert (0 < quad_form A' x') as Hq.
    { apply Hpd; [done| |done]. destruct HA' as [-> _]. lia. }
    pose proof (pow2_ge_0 (r * x0 + vdot u x')). lra.
Qed.

Lemma cholesky_square (a : list (list R)) :
  is_matrix (length a) (length a) a → cholesky a = potrf_upper (length a) a.
Proof. intros [_ Ha]. unfold cholesky. by rewrite decide_True. Qed.

Lemma solve_triangular_square (a : list (list R)) (b : list R) :
  is_matrix (length a) (length a) a → length a = length b →
  solve_triangular a b = trtrs_upper a b.
Proof. intros [_ Ha] Hb. unfold solve_triangular. by rewrite decide_True. Qed.

Lemma not_positive_definite_cholesky (a : list (list R)) :
  is_matrix (length a) (length a) a → symmetric a → ¬ positive_definite a →
  cholesky a = Raise LinAlgError.
Proof.
  intros Ha Hs Hnpd. rewrite cholesky_square by done.
  destruct (potrf_upper_cases _ a Ha) as [(U & _ & Hpd)|HU]; [|done].
  destruct Hnpd. by apply Hpd.
Qed.

(** C6.  For every data vector and every symmetric square covariance
    matrix that is not positive definite, [get_lnL] raises the "not positive
    definite" error of the Cholesky factorisation, [LinAlgError], and returns
    no value. *)
Theorem get_lnL_not_positive_definite (data : list R) (cov : list (list R)) :
  is_matrix (length cov) (length cov) cov →
  symmetric cov →
  ¬ positive_definite cov →
  get_lnL data cov = Raise LinAlgError.
Proof.
  intros Hc Hs Hnpd. unfold get_lnL.
  by rewrite not_positive_definite_cholesky.
Qed.

Lemma get_lnL_not_positive_definite_witness :
  get_lnL [1; 1] [[1; 2]; [2; 1]] = Raise LinAlgError.
Proof.
  apply (get_lnL_not_positive_definite [1; 1] [[1; 2]; [2; 1]]).
  - split; [done|]. repeat constructor.
  - intros [|[|i]] [|[|j]]; done.
  - intros Hpd. specialize (Hpd [1; -1] eq_refl).
    unfold quad_form, matvec in Hpd. cbn in Hpd.
    assert (Exists (λ a : R, a ≠ 0) [1; -1]) as Hnz by (left; lra).
    specialize (Hpd Hnz). lra.
Defined.

(** ** The likelihood of a diagonal covariance *)

Lemma np_diag_cons (a : R) (v : list R) :
  np_diag (a :: v) = (a :: zeros (length v)) :: (cons 0 <$> np_diag v).
Proof.
  unfold np_diag. cbn [imap length]. f_equal.
  rewrite fmap_imap. apply imap_ext. intros i x _. done.
Qed.

Lemma is_matrix_np_diag (v : list R) :
  is_matrix (length v) (length v) (np_diag v).
Proof.
  unfold np_diag. split; [by rewrite length_imap|].
  apply Forall_forall. intros row Hrow.
  apply list_elem_of_lookup in Hrow as [i Hi].
  rewrite list_lookup_imap in Hi.
  destruct (v !! i); cbn in Hi; [|done]. injection Hi as <-.
  unfold zeros. by rewrite length_insert, length_replicate.
Qed.

Lemma diagonal_np_diag (v : list R) : diagonal (np_diag v) = v.
Proof.
  apply list_eq. intros i. unfold diagonal, np_diag.
  rewrite !list_lookup_imap.
  destruct (v !! i) as [a|] eqn:Hi; cbn; [|done].
  rewrite list_lookup_insert_eq; [done|].
  unfold zeros. rewrite length_replicate. by eapply lookup_lt_Some.
Qed.

Lemma tail_cons_fmap {A : Type} (a : A) (M : list (list A)) :
  tail <$> (cons a <$> M) = M.
Proof. rewrite <- list_fmap_compose. by rewrite list_fmap_id. Qed.

Lemma zip_minus_zero_row (m : nat) (row : list R) :
  length row = m → zip_with Rminus row (replicate m 0) = row.
Proof.
  revert row. induction m as [|m IH]; intros [|x row] Hrow; try done.
  cbn [replicate zip_with]. f_equal; [ring|]. apply IH. cbn in Hrow. lia.
Qed.

Lemma zip_minus_zero_matrix (k m : nat) (M : list (list R)) :
  is_matrix k m M →
  zip_with (zip_with Rminus) M (replicate k (replicate m 0)) = M.
Proof.
  intros [Hlen Hrows]. revert k Hlen.
  induction Hrows as [|row M Hrow _ IH]; intros [|k] Hlen; try done.
  cbn [replicate zip_with]. f_equal; [by apply zip_minus_zero_row|].
  apply IH. cbn in Hlen. lia.
Qed.

(** Subtracting the outer product of a zero vector changes nothing. *)
Lemma minus_outer_zeros (n : nat) (r : R) (M : list (list R)) :
  is_matrix n n M →
  zip_with (zip_with Rminus) M
    (outer ((λ v, v / r) <$> zeros n) ((λ v, v / r) <$> zeros n)) = M.
Proof.
  intros HM. unfold outer, zeros. rewrite !fmap_replicate.
  match goal with |- context [replicate n (replicate n ?c)] =>
    replace c with 0 by (cbn; unfold Rdiv; ring) end.
  by apply zip_minus_zero_matrix.
Qed.

Lemma potrf_upper_np_diag (v : list R) :
  Forall (λ a, 0 < a) v →
  potrf_upper (length v) (np_diag v) = Ok (np_diag (sqrt <$> v)).
Proof.
  induction 1 as [|a v Ha _ IH]; [done|].
  rewrite np_diag_cons. cbn [length potrf_upper].
  destruct (Rle_dec a 0) as [?|_]; [lra|].
  rewrite tail_cons_fmap, minus_outer_zeros by apply is_matrix_np_diag.
  rewrite IH. cbn [mbind result_bind].
  change (sqrt <$> a :: v) with (sqrt a :: (sqrt <$> v)).
  rewrite (np_diag_cons (sqrt a)), length_fmap. do 3 f_equal.
  unfold zeros. rewrite fmap_replicate. f_equal. cbn. unfold Rdiv. ring.
Qed.

Lemma vdot_zeros_l (n : nat) (x : list R) : vdot (zeros n) x = 0.
Proof. apply vdot_zero_l. unfold zeros. by apply Forall_replicate. Qed.

Lemma trtrs_upper_np_diag (s b : list R) :
  length b = length s → Forall (λ a, a ≠ 0) s →
  trtrs_upper (np_diag s) b = Ok (zip_with Rdiv b s).
Proof.
  intros Hlen Hs. revert b Hlen.
  induction Hs as [|a s Ha _ IH]; intros [|b0 b] Hlen; try done.
  rewrite np_diag_cons. cbn [trtrs_upper].
  rewrite tail_cons_fmap, IH by (cbn in Hlen; lia). cbn [mbind result_bind].
  destruct (Req_dec_T a 0) as [?|_]; [done|].
  rewrite vdot_zeros_l. cbn [zip_with]. do 2 f_equal. field. done.
Qed.

Lemma sum_squares_diag (b v : list R) :
  length b = length v → Forall (λ a, 0 < a) v →
  let x := zip_with Rdiv b (sqrt <$> v) in
  vdot x x = np_sum (zip_with (λ bi vi, bi ^ 2 / vi) b v).
Proof.
  intros Hlen Hv. revert b Hlen.
  induction Hv as [|a v Ha _ IH]; intros [|b0 b] Hlen; try done.
  cbn zeta in *. cbn [fmap list_fmap zip_with]. rewrite vdot_cons, IH
    by (cbn in Hlen; lia).
  cbn [np_sum foldr]. change (s_add ?p ?q) with (p + q). f_equal.
  assert (sqrt a * sqrt a = a) as Hr by (apply sqrt_sqrt; lra).
  assert (sqrt a ≠ 0) as Hr0 by (intros H0; rewrite H0 in Hr; lra).
  rewrite <- Hr at 3. field. done.
Qed.

Lemma ln_sqrt_half (a : R) : 0 < a → ln (sqrt a) = ln a / 2.
Proof.
  intros Ha. pose proof (sqrt_lt_R0 a Ha) as Hs.
  rewrite <- (sqrt_sqrt a) at 2 by lra. rewrite ln_mult by done. lra.
Qed.

Lemma sum_ln_sqrt (v : list R) :
  Forall (λ a, 0 < a) v →
  np_sum (ln <$> (sqrt <$> v)) = np_sum (ln <$> v) / 2.
Proof.
  induction 1 as [|a v Ha _ IH]; [cbn; lra|].
  cbn [fmap list_fmap np_sum foldr]. unfold np_sum in IH. rewrite IH.
  rewrite ln_sqrt_half by done. cbn. lra.
Qed.

(** What [get_lnL] returns for a diagonal covariance: the logarithm of the
    determinant enters with the factor [1 / 2]. *)
Lemma get_lnL_np_diag (d v : list R) :
  length d = length v → Forall (λ a, 0 < a) v →
  get_lnL d (np_diag v)
  = Ok (np_sum (zip_with (λ di vi, di ^ 2 / vi) d v) + np_sum (ln <$> v) / 2).
Proof.
  intros Hlen Hv. unfold get_lnL.
  assert (length (np_diag v) = length v) as Hn by apply is_matrix_np_diag.
  rewrite cholesky_square by (rewrite Hn; apply is_matrix_np_diag).
  rewrite Hn, potrf_upper_np_diag by done. cbn [mbind result_bind].
  assert (length (np_diag (sqrt <$> v)) = length v) as Hn'.
  { rewrite <- (length_fmap sqrt v). apply is_matrix_np_diag. }
  rewrite solve_triangular_square; cycle 1.
  { rewrite Hn', <- (length_fmap sqrt v). apply is_matrix_np_diag. }
  { by rewrite Hn'. }
  rewrite trtrs_upper_np_diag; cycle 1.
  { by rewrite length_fmap. }
  { apply Forall_fmap. eapply Forall_impl; [done|]. intros a Ha. cbn.
    pose proof (sqrt_lt_R0 a Ha). lra. }
  cbn [mbind result_bind]. rewrite diagonal_np_diag.
  by rewrite sum_squares_diag, sum_ln_sqrt.
Qed.

(** C3 fails on the code.  For every diagonal covariance [diag(v)] with
    positive [v] the code returns [sum d_i^2 / v_i + (sum ln v_i) / 2]: the
    sum of the logarithms of the Cholesky diagonal is not doubled.  For
    [d = [1]] and [v = [4]] this is [1 / 4 + ln 2], not [1 / 4 + ln 4]. *)
Theorem get_lnL_diagonal_half_logdet :
  (∀ d v : list R,
      length d = length v → Forall (λ a, 0 < a) v →
      get_lnL d (np_diag v)
      = Ok (np_sum (zip_with (λ di vi, di ^ 2 / vi) d v)
            + np_sum (ln <$> v) / 2)) ∧
  get_lnL [1] [[4]] = Ok (1 / 4 + ln 2) ∧
  1 / 4 + ln 2 ≠ 1 ^ 2 / 4 + ln 4.
Proof.
  split; [apply get_lnL_np_diag|]. split.
  - change [[4]] with (np_diag [4]).
    rewrite get_lnL_np_diag by (done || (repeat constructor; lra)).
    f_equal. cbn. replace 4 with (2 * 2) at 2 by lra.
    rewrite ln_mult by lra. lra.
  - replace 4 with (2 * 2) at 3 by lra. rewrite ln_mult by lra.
    pose proof ln_lt_2. lra.
Qed.

(** C1 fails on the code.  For [d = [1, 0]] and [C = [[1, 1], [1, 2]]]
    (symmetric positive definite, determinant [1]) the solution of
    [C y = d] is [y = [2, -1]], so [d^T C^-1 d + ln (det C) = 2].  The code
    factors [C = U^T U] with [U] upper triangular and solves [U x = d] by
    back substitution, where [U^T x = d] is needed: it returns [1]. *)
Theorem get_lnL_upper_factor :
  let d := [1; 0] in
  let C := [[1; 1]; [1; 2]] in
  get_lnL d C = Ok 1 ∧
  matvec C [2; -1] = d ∧ det 2 C = 1 ∧
  vdot d [2; -1] + ln (det 2 C) = 2.
Proof.
  cbn zeta. split; [|split; [|split]].
  - unfold get_lnL. rewrite cholesky_square by (split; repeat constructor).
    cbn [length potrf_upper].
    destruct (Rle_dec 1 0) as [?|_]; [lra|]. rewrite sqrt_1. cbn.
    replace (2 - 1 / 1 * (1 / 1)) with 1 by field.
    destruct (Rle_dec 1 0) as [?|_]; [lra|]. rewrite sqrt_1. cbn.
    rewrite solve_triangular_square by (done || (split; repeat constructor)).
    cbn. destruct (Req_dec_T 1 0) as [?|_]; [lra|]. cbn.
    destruct (Req_dec_T 1 0) as [?|_]; [lra|]. cbn.
    rewrite ln_1. f_equal. field.
  - unfold matvec. cbn. repeat f_equal; ring.
  - cbn. ring.
  - replace (det 2 _) with 1 by (cbn; ring). rewrite ln_1. cbn. ring.
Qed.

(** ** When the likelihood returns *)

Lemma potrf_upper_factor (n : nat) (A U : list (list R)) :
  is_matrix n n A → potrf_upper n A = Ok U → upper_factor n U.
Proof.
  revert A U. induction n as [|n IH]; intros A U HA HU.
  { cbn in HU. injection HU as <-. constructor. }
  pose proof HA as [Hlen Hrows].
  destruct A as [|[|a b] rest]; [done|done|].
  cbn [potrf_upper] in HU. destruct (Rle_dec a 0) as [Ha|Ha]; [done|].
  apply Rnot_le_lt in Ha.
  apply Forall_cons in Hrows as [Hb Hrows]. cbn in Hlen, Hb.
  match type of HU with context [potrf_upper n ?A'] =>
    destruct (potrf_upper n A') as [U'|e] eqn:HU'; [|done];
    assert (is_matrix n n A') as HA'
  end.
  { apply schur_is_matrix; [split; [lia|done]|]. rewrite length_fmap. lia. }
  cbn in HU. injection HU as <-. constructor.
  - by apply sqrt_lt_R0.
  - rewrite length_fmap. lia.
  - by eapply IH.
Qed.

Lemma upper_factor_is_matrix (n : nat) (U : list (list R)) :
  upper_factor n U → is_matrix n n U.
Proof.
  induction 1 as [|n r u U' Hr Hu _ [IHl IHr]]; [by split|]. split.
  - cbn. rewrite length_fmap. lia.
  - constructor; [cbn; lia|]. apply Forall_fmap.
    eapply Forall_impl; [done|]. intros row Hrow. cbn in *. lia.
Qed.

Lemma trtrs_upper_factor (n : nat) (U : list (list R)) (b : list R) :
  upper_factor n U → length b = n →
  ∃ x, trtrs_upper U b = Ok x ∧ length x = n.
Proof.
  intros HU. revert b. induction HU as [|n r u U' Hr Hu _ IH]; intros b Hb.
  { destruct b; [|done]. by exists []. }
  destruct b as [|bi b]; [done|]. cbn [trtrs_upper].
  rewrite tail_cons_fmap.
  destruct (IH b) as (x' & -> & Hx'); [cbn in Hb; lia|].
  cbn [mbind result_bind]. destruct (Req_dec_T r 0) as [?|_]; [lra|].
  eexists. split; [done|]. cbn. lia.
Qed.

(** A positive definite symmetric matrix has a positive first pivot and a
    positive definite trailing block after one elimination step. *)
Lemma positive_definite_pivot (n : nat) (a : R) (b : list R) (rest : list (list R)) :
  is_matrix (S n) (S n) ((a :: b) :: rest) →
  positive_definite ((a :: b) :: rest) → 0 < a.
Proof.
  intros [Hlen Hrows] Hpd.
  specialize (Hpd (1 :: zeros n)). cbn in Hlen.
  unfold quad_form in Hpd. cbn [matvec fmap list_fmap] in Hpd.
  rewrite vdot_cons, vdot_cons, vdot_zeros_l in Hpd.
  rewrite (vdot_comm b), vdot_zeros_l in Hpd.
  assert (0 < 1 * (a * 1 + 0) + 0) as H0; [|lra].
  apply Hpd.
  - cbn. unfold zeros. rewrite length_replicate. lia.
  - left. lra.
Qed.

Lemma positive_definite_schur (n : nat) (a : R) (b : list R) (rest : list (list R)) :
  is_matrix (S n) (S n) ((a :: b) :: rest) →
  symmetric ((a :: b) :: rest) →
  positive_definite ((a :: b) :: rest) →
  let u := (λ v, v / sqrt a) <$> b in
  positive_definite (zip_with (zip_with Rminus) (tail <$> rest) (outer u u)).
Proof.
  intros HC Hs Hpd u x' Hx' Hnz.
  pose proof (positive_definite_pivot n a b rest HC Hpd) as Ha.
  assert (sqrt a ≠ 0) as Hr by (pose proof (sqrt_lt_R0 a Ha); lra).
  pose proof (quad_form_step n a (- vdot u x' / sqrt a) b x' rest HC Hs Ha) as Hq.
  cbn zeta in Hq. fold u in Hq.
  replace (sqrt a * (- vdot u x' / sqrt a) + vdot u x') with 0 in Hq
    by (field; done).
  assert (0 < quad_form ((a :: b) :: rest) (- vdot u x' / sqrt a :: x')) as Hpos.
  { apply Hpd; [|by right]. cbn. f_equal.
    destruct HC as [Hlen Hrows]. apply Forall_cons in Hrows as [Hb Hrows].
    cbn in Hlen, Hb.
    rewrite Hx'. unfold outer, u. rewrite length_zip_with, !length_fmap. lia. }
  rewrite Hq in Hpos. lra.
Qed.

Lemma potrf_upper_positive_definite (n : nat) (A : list (list R)) :
  is_matrix n n A → symmetric A → positive_definite A →
  ∃ U, potrf_upper n A = Ok U.
Proof.
  revert A. induction n as [|n IH]; intros A HA Hs Hpd; [by exists []|].
  pose proof HA as [Hlen Hrows].
  destruct A as [|[|a b] rest]; [done| |].
  { apply Forall_cons in Hrows as [? _]. done. }
  pose proof (positive_definite_pivot n a b rest HA Hpd) as Ha.
  cbn [potrf_upper]. destruct (Rle_dec a 0) as [?|_]; [lra|].
  apply Forall_cons in Hrows as [Hb Hrows]. cbn in Hlen, Hb.
  destruct (IH (zip_with (zip_with Rminus) (tail <$> rest)
                  (outer ((λ v, v / sqrt a) <$> b) ((λ v, v / sqrt a) <$> b))))
    as [U' ->].
  - apply schur_is_matrix; [split; [lia|done]|]. rewrite length_fmap. lia.
  - by eapply schur_symmetric.
  - by apply (positive_definite_schur n).
  - by eexists.
Qed.

Lemma positive_definite_1x1 (a : R) : 0 < a → positive_definite [[a]].
Proof.
  intros Ha x Hx Hnz. destruct x as [|x0 [|??]]; try done.
  apply Exists_cons in Hnz as [Hx0|Hnz]; [|by apply Exists_nil in Hnz].
  unfold quad_form, matvec. cbn.
  assert (0 < x0 * x0) by nra. nra.
Qed.

Lemma symmetric_1x1 {A : Type} (a : A) : symmetric [[a]].
Proof. intros [|i] [|j]; try done; by destruct i || by destruct j. Qed.

(** X3.  For a square symmetric covariance and a data vector of its
    length, [get_lnL] returns a value exactly when the covariance is
    positive definite. *)
Theorem get_lnL_returns_iff_positive_definite (data : list R) (cov : list (list R)) :
  is_matrix (length cov) (length cov) cov →
  symmetric cov →
  length data = length cov →
  (∃ v, get_lnL data cov = Ok v) ↔ positive_definite cov.
Proof.
  intros Hc Hs Hd. unfold get_lnL. rewrite cholesky_square by done. split.
  - intros [v Hv].
    destruct (potrf_upper_cases _ cov Hc) as [(U & _ & Hpd)|HU]; [by apply Hpd|].
    by rewrite HU in Hv.
  - intros Hpd.
    destruct (potrf_upper_positive_definite _ cov Hc Hs Hpd) as [U HU].
    rewrite HU. cbn [mbind result_bind].
    pose proof (potrf_upper_factor _ cov U Hc HU) as HF.
    pose proof (upper_factor_is_matrix _ U HF) as HM.
    pose proof HM as [HUlen _].
    rewrite solve_triangular_square by (rewrite ?HUlen; done).
    destruct (trtrs_upper_factor _ U data HF Hd) as (x & -> & _).
    by eexists.
Qed.

Lemma get_lnL_returns_iff_positive_definite_witness :
  (∃ v, get_lnL [1] [[4]] = Ok v) ↔ positive_definite [[4]].
Proof.
  apply (get_lnL_returns_iff_positive_definite [1] [[4]]).
  - split; [done|]. repeat constructor.
  - apply symmetric_1x1.
  - done.
Defined.

(** X4.  For a positive definite symmetric covariance and a data vector of
    another length, the factorisation succeeds and the triangular solve
    rejects the shapes: [get_lnL] raises [ValueError]. *)
Theorem get_lnL_data_length (data : list R) (cov : list (list R)) :
  is_matrix (length cov) (length cov) cov →
  symmetric cov →
  positive_definite cov →
  length data ≠ length cov →
  get_lnL data cov = Raise ValueError.
Proof.
  intros Hc Hs Hpd Hd. unfold get_lnL. rewrite cholesky_square by done.
  destruct (potrf_upper_positive_definite _ cov Hc Hs Hpd) as [U HU].
  rewrite HU. cbn [mbind result_bind].
  pose proof (potrf_upper_factor _ cov U Hc HU) as HF.
  pose proof (upper_factor_is_matrix _ U HF) as [HUlen _].
  unfold solve_triangular. rewrite decide_False; [done|].
  intros [_ Hlen]. congruence.
Qed.

Lemma get_lnL_data_length_witness :
  get_lnL [1; 2] [[4]] = Raise ValueError.
Proof.
  apply (get_lnL_data_length [1; 2] [[4]]).
  - split; [done|]. repeat constructor.
  - apply symmetric_1x1.
  - apply positive_definite_1x1. lra.
  - done.
Defined.

(** ** Diagonal covariance matrices *)

Lemma np_diag_tabulate (v : list R) :
  np_diag v
  = tabulate2 (length v) (length v) (λ i j, if decide (j = i) then at1 v i else 0).
Proof.
  apply list_eq. intros i. unfold np_diag, tabulate2.
  rewrite list_lookup_imap, lookup_tabulate. unfold at1.
  destruct (v !! i) as [a|] eqn:Hi; cbn.
  - rewrite decide_True by (by eapply lookup_lt_Some). f_equal.
    unfold zeros. by rewrite replicate_tabulate, insert_tabulate.
  - rewrite decide_False; [done|]. apply lookup_ge_None in Hi. lia.
Qed.

Lemma np_diag_positive_definite (v : list R) :
  Forall (λ a, 0 < a) v → positive_definite (np_diag v).
Proof.
  intros Hv. pose proof (is_matrix_np_diag v) as HM.
  destruct (potrf_upper_cases (length v) (np_diag v) HM) as [(U & _ & Hpd)|HU].
  - apply Hpd. rewrite np_diag_tabulate. apply symmetric_tabulate2.
    intros i j _ _. destruct (Nat.eq_dec i j) as [->|Hij]; [done|].
    by rewrite !decide_False by lia.
  - by rewrite potrf_upper_np_diag in HU.
Qed.

(** ** The foreground covariance as a quadratic form *)

Lemma vdot_plus (p q x : list R) :
  length p = length q →
  vdot (zip_with Rplus p q) x = vdot p x + vdot q x.
Proof.
  revert q x. induction p as [|a p IH]; intros [|b q] [|x0 x] Hlen;
    try done; cbn [zip_with]; rewrite ?vdot_nil_r, ?vdot_cons;
    try (unfold vdot; cbn; lra).
  rewrite IH by (cbn in Hlen; lia). ring.
Qed.

Lemma vdot_scale_l (c : R) (p x : list R) :
  vdot (Rmult c <$> p) x = c * vdot p x.
Proof.
  revert x. induction p as [|a p IH]; intros [|x0 x]; cbn [fmap list_fmap];
    rewrite ?vdot_nil_r, ?vdot_nil_l, ?vdot_cons, ?IH; ring.
Qed.

Lemma quad_plus (y x : list R) (A B : list (list R)) :
  Forall2 (λ p q, length p = length q) A B →
  vdot y (matvec (zip_with (zip_with Rplus) A B) x)
  = vdot y (matvec A x) + vdot y (matvec B x).
Proof.
  intros HAB. revert y. induction HAB as [|p q A B Hpq _ IH]; intros [|y0 y];
    cbn [zip_with matvec fmap list_fmap]; rewrite ?vdot_nil_r, ?vdot_nil_l;
    try ring.
  rewrite !vdot_cons. unfold matvec in IH. rewrite IH, vdot_plus by done. ring.
Qed.

Lemma quad_scale (c : R) (y x : list R) (M : list (list R)) :
  vdot y (matvec (map_entries (Rmult c) M) x) = c * vdot y (matvec M x).
Proof.
  revert y. induction M as [|row M IH]; intros [|y0 y];
    cbn [map_entries matvec fmap list_fmap]; rewrite ?vdot_nil_r, ?vdot_nil_l;
    try ring.
  rewrite !vdot_cons. unfold matvec, map_entries in IH.
  rewrite IH, vdot_scale_l. ring.
Qed.

Lemma tabulate2_shapes (f g : nat → nat → R) (n m : nat) :
  Forall2 (λ p q : list R, length p = length q) (tabulate2 n m f) (tabulate2 n m g).
Proof.
  unfold tabulate2. apply Forall2_fmap, Forall_Forall2_diag, Forall_forall.
  intros i _. by rewrite !length_fmap.
Qed.

Lemma tabulate2_plus (f g : nat → nat → R) (n m : nat) :
  tabulate2 n m (λ i j, f i j + g i j)
  = zip_with (zip_with Rplus) (tabulate2 n m f) (tabulate2 n m g).
Proof.
  unfold tabulate2. rewrite zip_with_tabulate. apply list_fmap_ext.
  intros _ i _. by rewrite zip_with_tabulate.
Qed.

Lemma vdot_ones_r (v : list R) :
  vdot v (replicate (length v) 1) = np_sum v.
Proof.
  induction v as [|a v IH]; [done|]. cbn [length replicate].
  rewrite vdot_cons, IH. change (np_sum (a :: v)) with (a + np_sum v). ring.
Qed.

Lemma at1_replicate (n i : nat) (c : R) :
  (i < n)%nat → at1 (replicate n c) i = c.
Proof. intros Hi. unfold at1. by rewrite lookup_replicate_2. Qed.

(** The quadratic form of the foreground covariance: a sum of four squares. *)
Lemma get_foreground_cov_quad_form (x y z v : list R) :
  length y = length x → length z = length x → length v = length x →
  ∃ F_cov,
    get_foreground_cov x y z = Ok F_cov ∧
    quad_form F_cov v
    = 1000 * (np_sum v ^ 2 + vdot x v ^ 2 + vdot y v ^ 2 + vdot z v ^ 2).
Proof.
  intros Hy Hz Hv. eexists. split; [by apply get_foreground_cov_tabulate|].
  set (N := length x).
  set (one := replicate N 1).
  assert (length one = N) as Hone by apply length_replicate.
  assert (tabulate2 N N
            (λ i j, 1000 * (1 + (at1 x i * at1 x j + at1 y i * at1 y j
                                 + at1 z i * at1 z j)))
          = map_entries (Rmult 1000)
              (zip_with (zip_with Rplus) (outer one one)
                 (zip_with (zip_with Rplus)
                    (zip_with (zip_with Rplus) (outer x x) (outer y y))
                    (outer z z)))) as ->.
  { rewrite !outer_tabulate, Hone, Hy, Hz. fold N.
    rewrite <- !tabulate2_plus, map_entries_tabulate2.
    apply tabulate2_ext. intros i j Hi Hj. unfold one.
    rewrite !at1_replicate by done. ring. }
  unfold quad_form. rewrite quad_scale.
  rewrite quad_plus; cycle 1.
  { rewrite !outer_tabulate, Hone, Hy, Hz. fold N.
    rewrite <- !tabulate2_plus. apply tabulate2_shapes. }
  rewrite quad_plus; cycle 1.
  { rewrite !outer_tabulate, Hy, Hz. fold N.
    rewrite <- !tabulate2_plus. apply tabulate2_shapes. }
  rewrite quad_plus; cycle 1.
  { rewrite !outer_tabulate, Hy. apply tabulate2_shapes. }
  rewrite !quad_outer.
  rewrite (vdot_comm one v). unfold one, N. rewrite <- Hv, vdot_ones_r.
  rewrite (vdot_comm v x), (vdot_comm v y), (vdot_comm v z). ring.
Qed.

(** X7.  For coordinate sequences of equal length the foreground covariance
    is positive semidefinite: its quadratic form at [v] is [1000] times the
    sum of the squares of the projections of [v] on the monopole template
    and on the three dipole templates. *)
Theorem get_foreground_cov_positive_semidefinite (x y z : list R) :
  length y = length x → length z = length x →
  ∃ F_cov,
    get_foreground_cov x y z = Ok F_cov ∧
    (∀ v, length v = length x →
          quad_form F_cov v
          = 1000 * (np_sum v ^ 2 + vdot x v ^ 2 + vdot y v ^ 2 + vdot z v ^ 2)) ∧
    positive_semidefinite F_cov.
Proof.
  intros Hy Hz. eexists. split; [by apply get_foreground_cov_tabulate|].
  assert (∀ v, length v = length x →
    quad_form (tabulate2 (length x) (length x)
                 (λ i j, 1000 * (1 + (at1 x i * at1 x j + at1 y i * at1 y j
                                      + at1 z i * at1 z j)))) v
    = 1000 * (np_sum v ^ 2 + vdot x v ^ 2 + vdot y v ^ 2 + vdot z v ^ 2)) as Hq.
  { intros v Hv.
    destruct (get_foreground_cov_quad_form x y z v Hy Hz Hv) as (F & HF & HqF).
    rewrite get_foreground_cov_tabulate in HF by done. by injection HF as <-. }
  split; [done|]. intros v Hv. rewrite Hq.
  - pose proof (pow2_ge_0 (np_sum v)). pose proof (pow2_ge_0 (vdot x v)).
    pose proof (pow2_ge_0 (vdot y v)). pose proof (pow2_ge_0 (vdot z v)). lra.
  - rewrite Hv. apply is_matrix_tabulate2.
Qed.

Lemma get_foreground_cov_positive_semidefinite_witness :
  ∃ F_cov,
    get_foreground_cov [1; 0] [0; 1] [0; 0] = Ok F_cov ∧
    (∀ v, length v = 2%nat →
          quad_form F_cov v
          = 1000 * (np_sum v ^ 2 + vdot [1; 0] v ^ 2 + vdot [0; 1] v ^ 2
                    + vdot [0; 0] v ^ 2)) ∧
    positive_semidefinite F_cov.
Proof.
  apply (get_foreground_cov_positive_semidefinite [1; 0] [0; 1] [0; 0]);
    reflexivity.
Defined.

(** ** Shapes that do not fit *)

Lemma broadcast_mismatch {A B C : Type} (f : A → B → result C) u v :
  length u ≠ length v → length u ≠ 1%nat → length v ≠ 1%nat →
  broadcast f u v = Raise ValueError.
Proof.
  intros Huv Hu Hv. unfold broadcast. rewrite decide_False by done.
  destruct u as [|a [|??]], v as [|b [|??]]; done.
Qed.

(** X8.  Coordinate sequences of different lengths, none of length one,
    cannot be broadcast: [get_foreground_cov] raises [ValueError]. *)
Theorem get_foreground_cov_length_mismatch (x y z : list R) :
  length x ≠ 1%nat → length y ≠ 1%nat → length z ≠ 1%nat →
  length y ≠ length x ∨ length z ≠ length x →
  get_foreground_cov x y z = Raise ValueError.
Proof.
  intros Hx1 Hy1 Hz1 Hne. unfold get_foreground_cov.
  destruct (decide (length y = length x)) as [Hy|Hy].
  - destruct Hne as [?|Hz]; [done|].
    rewrite !outer_tabulate, Hy, ew2_tabulate. cbn [mbind result_bind].
    unfold ew2. rewrite broadcast_mismatch; [done| | |];
      unfold tabulate2; rewrite !length_fmap, !length_seq; done.
  - unfold ew2. rewrite broadcast_mismatch; [done| | |];
      unfold outer; rewrite !length_fmap; done.
Qed.

Lemma get_foreground_cov_length_mismatch_witness :
  get_foreground_cov (T:=R) [1; 0; 0] [0; 1] [0; 0; 1] = Raise ValueError.
Proof.
  apply (get_foreground_cov_length_mismatch [1; 0; 0] [0; 1] [0; 0; 1]);
    cbn; lia || (left; lia).
Defined.

Lemma ew2_single (op : R → R → R) (f : nat → nat → R) (b : R) (n m : nat) :
  ew2 op (tabulate2 n m f) [[b]] = Ok (tabulate2 n m (λ i j, op (f i j) b)).
Proof.
  unfold ew2. rewrite broadcast_stretch_r. unfold tabulate2.
  rewrite (mapM_Ok _ (λ row, (λ a, op a b) <$> row)).
  - f_equal. rewrite <- list_fmap_compose. apply list_fmap_ext.
    intros _ i _. cbn. by rewrite <- list_fmap_compose.
  - apply Forall_forall. intros row _. unfold ew1.
    rewrite broadcast_stretch_r. apply mapM_Ok, Forall_forall. done.
Qed.

(** X9.  A coordinate sequence of length one is not rejected: NumPy
    broadcasts its [1 x 1] outer product to every pair of pixels.  With
    [y = [c]] the entries are [1000 (1 + x_i x_j + c^2 + z_i z_j)]. *)
Theorem get_foreground_cov_broadcasts_single (x z : list R) (c : R) :
  length z = length x →
  ∃ F_cov,
    get_foreground_cov x [c] z = Ok F_cov ∧
    is_matrix (length x) (length x) F_cov ∧
    ∀ i j, (i < length x)%nat → (j < length x)%nat →
      entry F_cov i j
      = Some (1000 * (1 + at1 x i * at1 x j + c * c + at1 z i * at1 z j)).
Proof.
  intros Hz. unfold get_foreground_cov.
  rewrite (outer_tabulate x x), (outer_tabulate z z), Hz.
  change (outer [c] [c]) with [[c * c]].
  rewrite ew2_single. cbn [mbind result_bind].
  rewrite ew2_tabulate. cbn [mbind result_bind].
  rewrite ones_tabulate, ew2_tabulate. cbn [mbind result_bind].
  rewrite ew2_scalar, map_entries_tabulate2.
  eexists. split; [done|]. split; [apply is_matrix_tabulate2|].
  intros i j Hi Hj. rewrite entry_tabulate2, decide_True by done.
  f_equal. cbn. ring.
Qed.

Lemma get_foreground_cov_broadcasts_single_witness :
  ∃ F_cov,
    get_foreground_cov [1; 0] [2] [0; 1] = Ok F_cov ∧
    is_matrix 2 2 F_cov ∧
    ∀ i j, (i < 2)%nat → (j < 2)%nat →
      entry F_cov i j
      = Some (1000 * (1 + at1 [1; 0] i * at1 [1; 0] j + 2 * 2
                      + at1 [0; 1] i * at1 [0; 1] j)).
Proof.
  apply (get_foreground_cov_broadcasts_single [1; 0] [0; 1] 2). reflexivity.
Defined.

(** ** More on the Legendre tensor *)

Lemma entry3_tabulate3 {A : Type} (f : nat → nat → nat → A) (n m k i j l : nat) :
  (i < n)%nat → (j < m)%nat → (l < k)%nat →
  entry3 (tabulate3 n m k f) i j l = Some (f i j l).
Proof.
  intros Hi Hj Hl. unfold entry3, entry, tabulate3.
  rewrite lookup_tabulate, decide_True by done. cbn.
  unfold tabulate2. rewrite lookup_tabulate, decide_True by done. cbn.
  by rewrite lookup_tabulate, decide_True by done.
Qed.

(** X10.  For coordinate sequences of equal length [N] and every [lmax],
    with no assumption on their norm, [get_legendre_mat] returns an
    [N x N x (lmax + 1)] array whose entry [(i, j, l)] is the Legendre
    polynomial [P_l] at the dot product of the vectors [i] and [j]. *)
Theorem get_legendre_mat_entries (lmax : nat) (x y z : list R) :
  length y = length x → length z = length x →
  ∃ p_ell_ij,
    get_legendre_mat lmax x y z = Ok p_ell_ij ∧
    length p_ell_ij = length x ∧
    Forall (λ row, length row = length x ∧
                   Forall (λ v, length v = (lmax + 1)%nat) row) p_ell_ij ∧
    ∀ i j l, (i < length x)%nat → (j < length x)%nat → (l ≤ lmax)%nat →
      entry3 p_ell_ij i j l
      = Some (legendre l (at1 x i * at1 x j + at1 y i * at1 y j
                          + at1 z i * at1 z j)).
Proof.
  intros Hy Hz. eexists. split; [by apply get_legendre_mat_tabulate|].
  split; [|split].
  - unfold tabulate3. by rewrite length_fmap, length_seq.
  - unfold tabulate3. apply Forall_fmap, Forall_forall. intros i _. cbn.
    destruct (is_matrix_tabulate2
      (λ j l, legendre l
         (vdot [at1 x i; at1 y i; at1 z i] [at1 x j; at1 y j; at1 z j]))
      (length x) (lmax + 1)) as [Hlen Hrows].
    done.
  - intros i j l Hi Hj Hl. rewrite entry3_tabulate3 by (done || lia).
    do 2 f_equal. cbn. ring.
Qed.

Lemma get_legendre_mat_entries_witness :
  ∃ p_ell_ij,
    get_legendre_mat 0 [1; 2] [0; 1] [0; 3] = Ok p_ell_ij ∧
    length p_ell_ij = 2%nat ∧
    Forall (λ row, length row = 2%nat ∧
                   Forall (λ v, length v = (0 + 1)%nat) row) p_ell_ij ∧
    ∀ i j l, (i < 2)%nat → (j < 2)%nat → (l ≤ 0)%nat →
      entry3 p_ell_ij i j l
      = Some (legendre l (at1 [1; 2] i * at1 [1; 2] j + at1 [0; 1] i * at1 [0; 1] j
                          + at1 [0; 3] i * at1 [0; 3] j)).
Proof.
  apply (get_legendre_mat_entries 0 [1; 2] [0; 1] [0; 3]); reflexivity.
Defined.

(** X11.  Coordinate sequences of different lengths cannot be stacked:
    [get_legendre_mat] raises [ValueError], also when one of them has length
    one. *)
Theorem get_legendre_mat_length_mismatch (lmax : nat) (x y z : list R) :
  length y ≠ length x ∨ length z ≠ length x →
  get_legendre_mat lmax x y z = Raise ValueError.
Proof.
  intros Hne. unfold get_legendre_mat, vstack. rewrite decide_False; [done|].
  intros HF. apply Forall_cons in HF as [_ HF].
  apply Forall_cons in HF as [Hy HF]. apply Forall_cons in HF as [Hz _].
  destruct Hne; done.
Qed.

Lemma get_legendre_mat_length_mismatch_witness :
  get_legendre_mat (T:=R) 2 [1; 0] [1] [0; 1] = Raise ValueError.
Proof.
  apply (get_legendre_mat_length_mismatch 2 [1; 0] [1] [0; 1]). left. cbn. lia.
Defined.

(** ** More on the model spectrum *)

Lemma spectrum_nonnegative (Q n : R) (l : nat) :
  -3 <= n → n < 9 → 0 <= spectrum Q n l.
Proof.
  intros Hlo Hhi. induction l as [|l IH]; [cbn; lra|].
  destruct (decide (2 ≤ l)%nat) as [Hl|Hl].
  - rewrite spectrum_succ, IZR_numerator, IZR_denominator by done.
    assert (2 <= INR l) by (apply (le_INR 2); lia).
    apply Rmult_le_pos; [|done].
    apply Rmult_le_pos; [lra|]. apply Rlt_le, Rinv_0_lt_compat. lra.
  - destruct l as [|[|l]]; [cbn; lra| |lia].
    cbn. pose proof PI_RGT_0. nra.
Qed.

(** X12.  For a spectral index with [-3 <= n < 9] and [lmax >= 2] no
    denominator vanishes and no factor of the recursion is negative:
    [get_C_ell_model] returns a sequence without negative entries. *)
Theorem get_C_ell_model_nonnegative (Q n : R) (lmax : nat) :
  (2 ≤ lmax)%nat → -3 <= n → n < 9 →
  ∃ C_ell, get_C_ell_model Q n lmax = Ok C_ell ∧ Forall (λ c, 0 <= c) C_ell.
Proof.
  intros Hl Hlo Hhi. eexists. split.
  - apply get_C_ell_model_spectrum; [done|]. intros l Hlt.
    rewrite IZR_denominator.
    assert (2 <= INR l) by (apply (le_INR 2); lia). lra.
  - apply Forall_fmap, Forall_forall. intros l _. cbn.
    by apply spectrum_nonnegative.
Qed.

Lemma get_C_ell_model_nonnegative_witness :
  ∃ C_ell, get_C_ell_model 20 1 47 = Ok C_ell ∧ Forall (λ c, 0 <= c) C_ell.
Proof. apply (get_C_ell_model_nonnegative 20 1 47); [lia|lra|lra]. Defined.

Lemma spectrum_scale_invariant (Q : R) (l : nat) :
  (2 ≤ l)%nat →
  spectrum Q 1 l = 24 * PI * Q ^ 2 / (5 * INR l * (INR l + 1)).
Proof.
  induction l as [|l IH]; [lia|]. intros Hl.
  destruct (decide (2 ≤ l)%nat) as [Hl2|Hl2].
  - rewrite spectrum_succ, IH, IZR_numerator, IZR_denominator, S_INR by done.
    assert (2 <= INR l) by (apply (le_INR 2); lia).
    field. lra.
  - assert (l = 1%nat) as -> by lia. cbn. field.
Qed.

(** X13.  The scale-invariant spectrum.  For [n = 1] and [lmax >= 2] the
    recursion has the closed form [C[l] = 24 pi Q^2 / (5 l (l + 1))] for
    [2 <= l <= lmax]: [l (l + 1) C[l]] does not depend on [l]. *)
Theorem get_C_ell_model_scale_invariant (Q : R) (lmax : nat) :
  (2 ≤ lmax)%nat →
  ∃ C_ell,
    get_C_ell_model Q 1 lmax = Ok C_ell ∧
    ∀ l, (2 ≤ l ≤ lmax)%nat →
      C_ell !! l = Some (24 * PI * Q ^ 2 / (5 * INR l * (INR l + 1))).
Proof.
  intros Hl. eexists. split.
  - apply get_C_ell_model_spectrum; [done|]. intros l Hlt.
    rewrite IZR_denominator. pose proof (pos_INR l). lra.
  - intros l Hlt. rewrite lookup_tabulate, decide_True by lia.
    by rewrite spectrum_scale_invariant by lia.
Qed.

Lemma get_C_ell_model_scale_invariant_witness :
  ∃ C_ell,
    get_C_ell_model 20 1 47 = Ok C_ell ∧
    ∀ l, (2 ≤ l ≤ 47)%nat →
      C_ell !! l = Some (24 * PI * 20 ^ 2 / (5 * INR l * (INR l + 1))).
Proof. apply (get_C_ell_model_scale_invariant 20 47). lia. Defined.

(** X14.  Raising [lmax] by one appends one multipole and leaves the
    others as they are. *)
Theorem get_C_ell_model_extends (Q n : R) (lmax : nat) :
  (2 ≤ lmax)%nat →
  (∀ l, (2 ≤ l ≤ lmax)%nat → 2 * INR l + 5 - n ≠ 0) →
  ∃ C_ell c,
    get_C_ell_model Q n lmax = Ok C_ell ∧
    get_C_ell_model Q n (lmax + 1) = Ok (C_ell ++ [c]).
Proof.
  intros Hl Hden.
  exists (spectrum Q n <$> seq 0 (lmax + 1)), (spectrum Q n (lmax + 1)).
  rewrite !get_C_ell_model_spectrum;
    try done; try lia;
    try (intros l Hlt; rewrite IZR_denominator; apply Hden; lia).
  split; [done|]. f_equal.
  replace (lmax + 1 + 1)%nat with (S (lmax + 1)) by lia.
  by rewrite seq_S, fmap_app.
Qed.

Lemma get_C_ell_model_extends_witness :
  ∃ C_ell c,
    get_C_ell_model 1 1 3 = Ok C_ell ∧
    get_C_ell_model 1 1 (3 + 1) = Ok (C_ell ++ [c]).
Proof.
  apply (get_C_ell_model_extends 1 1 3); [lia|].
  intros l _. pose proof (pos_INR l). lra.
Defined.

(** NumPy scalars: the loop never raises. *)
Section TotalDivision.
Context {T : Type} `{Scalar T}.
Hypothesis truediv_total : ∀ a b : T, ∃ c, truediv a b = Ok c.

Lemma C_ell_step_total (n : T) (C_ell : list T) (l : nat) :
  (l + 1 < length C_ell)%nat →
  ∃ C', C_ell_step n C_ell l = Ok C' ∧ length C' = length C_ell.
Proof.
  intros Hl. unfold C_ell_step.
  destruct (truediv_total (of_int (2 * Z.of_nat l) + n - of_int 1)%S
              (of_int (2 * Z.of_nat l + 5) - n)%S) as [ratio ->].
  cbn [mbind result_bind]. unfold getitem.
  destruct (lookup_lt_is_Some_2 C_ell l ltac:(lia)) as [c ->].
  cbn [mbind result_bind]. unfold setitem. rewrite decide_True by done.
  eexists. split; [done|]. by rewrite length_insert.
Qed.

Lemma C_ell_loop_total (n : T) (C_ell : list T) (s k : nat) :
  (s + k < length C_ell)%nat →
  ∃ C', for_each (C_ell_step n) C_ell (seq s k) = Ok C'
        ∧ length C' = length C_ell.
Proof.
  revert s C_ell. induction k as [|k IH]; intros s C_ell Hk; [by eexists|].
  cbn [seq for_each].
  destruct (C_ell_step_total n C_ell s) as (C1 & -> & Hlen1); [lia|].
  cbn [mbind result_bind].
  destruct (IH (S s) C1) as (C' & -> & Hlen'); [lia|].
  eexists. split; [done|]. congruence.
Qed.

Lemma get_C_ell_model_total (Q n : T) (lmax : nat) :
  (2 ≤ lmax)%nat →
  ∃ C_ell, get_C_ell_model Q n lmax = Ok C_ell ∧ length C_ell = (lmax + 1)%nat.
Proof.
  intros Hl. unfold get_C_ell_model.
  destruct (truediv_total (of_int 4 * s_pi)%S (of_int 5)) as [q ->].
  cbn [mbind result_bind]. unfold setitem, zeros.
  rewrite decide_True by (rewrite length_replicate; lia).
  cbn [mbind result_bind].
  destruct (C_ell_loop_total n (<[2%nat:=(q * sqr Q)%S]> (replicate (lmax + 1) (of_int 0)))
              2 (lmax - 2)) as (C' & -> & Hlen).
  - rewrite length_insert, length_replicate. lia.
  - eexists. split; [done|].
    by rewrite Hlen, length_insert, length_replicate.
Qed.
End TotalDivision.

(** X15.  With NumPy float64 scalars and [lmax >= 2], [get_C_ell_model]
    raises for no [Q] and no [n], whatever the denominators are: it always
    returns a sequence of length [lmax + 1]. *)
Theorem get_C_ell_model_float64_never_raises (Q n : PrimFloat.float) (lmax : nat) :
  (2 ≤ lmax)%nat →
  ∃ C_ell, get_C_ell_model Q n lmax = Ok C_ell ∧ length C_ell = (lmax + 1)%nat.
Proof.
  apply get_C_ell_model_total. intros a b. by eexists.
Qed.

Lemma get_C_ell_model_float64_never_raises_witness :
  ∃ C_ell,
    get_C_ell_model (float_of_Z 1) (float_of_Z 9) 3 = Ok C_ell
    ∧ length C_ell = (3 + 1)%nat.
Proof.
  apply (get_C_ell_model_float64_never_raises (float_of_Z 1) (float_of_Z 9) 3).
  lia.
Defined.

(** ** More on the signal covariance *)

Lemma entry_fmap2 {A B : Type} (f : A → B) (M : list (list A)) (i j : nat) :
  entry ((λ row : list A, f <$> row) <$> M) i j = f <$> entry M i j.
Proof.
  unfold entry. rewrite list_lookup_fmap.
  destruct (M !! i) as [row|]; cbn; [|done]. by rewrite list_lookup_fmap.
Qed.

(** X16.  For arrays of matching lengths and a tensor with symmetric
    slices, the signal covariance is a symmetric matrix of the shape of the
    first two axes of the tensor. *)
Theorem get_signal_cov_symmetric (C_ell beam pixwin : list R)
    (p_ell_ij : list (list (list R))) :
  length beam = length C_ell → length pixwin = length C_ell →
  Forall (Forall (λ P, length P = length C_ell)) p_ell_ij →
  symmetric_slices p_ell_ij →
  ∃ S_cov,
    get_signal_cov C_ell beam pixwin p_ell_ij = Ok S_cov ∧
    length S_cov = length p_ell_ij ∧
    Forall2 (λ row prow, length row = length prow) S_cov p_ell_ij ∧
    symmetric S_cov.
Proof.
  intros Hb Hp HP Hs. eexists.
  split; [by apply get_signal_cov_weights|]. split; [|split].
  - by rewrite length_fmap.
  - apply Forall2_fmap_l, Forall_Forall2_diag, Forall_forall. intros row _.
    cbn. by rewrite length_fmap.
  - intros i j. by rewrite !entry_fmap2, (Hs i j).
Qed.

Lemma get_signal_cov_symmetric_witness :
  ∃ S_cov,
    get_signal_cov [0; 0; 1] [1; 1; 1] [1; 1; 1]
      [[[1; 1; 1]; [1; 0; -1]]; [[1; 0; -1]; [1; 1; 1]]] = Ok S_cov ∧
    length S_cov = 2%nat ∧
    Forall2 (λ row prow, length row = length prow) S_cov
      [[[1; 1; 1]; [1; 0; -1]]; [[1; 0; -1]; [1; 1; 1]]] ∧
    symmetric S_cov.
Proof.
  apply (get_signal_cov_symmetric [0; 0; 1] [1; 1; 1] [1; 1; 1]
           [[[1; 1; 1]; [1; 0; -1]]; [[1; 0; -1]; [1; 1; 1]]]).
  - reflexivity.
  - reflexivity.
  - repeat constructor.
  - intros [|[|i]] [|[|j]]; reflexivity.
Defined.

(** X17.  Arrays whose lengths differ, none of length one, cannot be
    broadcast: a beam that is not as long as the spectrum makes
    [get_signal_cov] raise [ValueError]. *)
Theorem get_signal_cov_length_mismatch (C_ell beam pixwin : list R)
    (p_ell_ij : list (list (list R))) :
  length beam ≠ length C_ell → length beam ≠ 1%nat → length C_ell ≠ 1%nat →
  get_signal_cov C_ell beam pixwin p_ell_ij = Raise ValueError.
Proof.
  intros Hne Hb1 Hc1. unfold get_signal_cov, ew1.
  rewrite broadcast_mismatch; [done| | |];
    rewrite ?length_fmap, ?length_linspace; done.
Qed.

Lemma get_signal_cov_length_mismatch_witness :
  get_signal_cov (T:=R) [0; 0; 1; 0] [1; 1; 1] [1; 1; 1; 1] [[[1; 1; 1; 1]]]
  = Raise ValueError.
Proof.
  apply (get_signal_cov_length_mismatch [0; 0; 1; 0] [1; 1; 1]); cbn; lia.
Defined.

Lemma multipole_factors_tabulate (lmax : nat) :
  (1 ≤ lmax)%nat →
  (λ a, 2 * a - 1) <$> linspace 0 (INR (lmax + 1)) (lmax + 1)
  = (λ l, 2 * INR l * (INR lmax + 1) / INR lmax - 1) <$> seq 0 (lmax + 1).
Proof.
  intros Hlmax. apply list_eq. intros l.
  assert (INR lmax ≠ 0) as Hnz by (apply not_0_INR; lia).
  rewrite lookup_tabulate, list_lookup_fmap.
  destruct (decide (l < lmax + 1)%nat) as [Hl|Hl]; cycle 1.
  { rewrite (proj2 (lookup_ge_None _ _)); [done|]. rewrite length_linspace. lia. }
  replace (lmax + 1)%nat with (S (S (lmax - 1))) at 2 by lia.
  cbn [linspace]. replace (S (S (lmax - 1)) - 1)%nat with lmax by lia.
  replace (S (S (lmax - 1))) with (lmax + 1)%nat by lia.
  destruct (decide (l = lmax)) as [->|Hne].
  - rewrite list_lookup_insert_eq by (rewrite length_fmap, length_seq; lia).
    cbn. f_equal. rewrite plus_INR. cbn. field. done.
  - rewrite list_lookup_insert_ne by done.
    rewrite lookup_tabulate, decide_True by lia. cbn.
    rewrite <- !INR_IZR_INZ, plus_INR. cbn. f_equal. field. done.
Qed.

(** X18.  What [get_signal_cov] computes.  For [lmax >= 1], arrays of
    length [lmax + 1] and a tensor with that last axis, entry [(i, j)] of
    the result is
    [sum_l (2 l (lmax + 1) / lmax - 1) beam[l]^2 pixwin[l]^2 C[l] P[i,j,l]]
    over [4 pi]. *)
Theorem get_signal_cov_entries (lmax : nat) (C_ell beam pixwin : list R)
    (p_ell_ij : list (list (list R))) :
  (1 ≤ lmax)%nat → length C_ell = (lmax + 1)%nat →
  length beam = length C_ell → length pixwin = length C_ell →
  Forall (Forall (λ P, length P = length C_ell)) p_ell_ij →
  ∃ S_cov,
    get_signal_cov C_ell beam pixwin p_ell_ij = Ok S_cov ∧
    ∀ i j P, entry p_ell_ij i j = Some P →
      entry S_cov i j
      = Some (np_sum
                ((λ l, (2 * INR l * (INR lmax + 1) / INR lmax - 1)
                       * at1 beam l ^ 2 * at1 pixwin l ^ 2
                       * at1 C_ell l * at1 P l) <$> seq 0 (lmax + 1))
              / (4 * PI)).
Proof.
  intros Hlmax HC Hb Hp HP. eexists.
  split; [by apply get_signal_cov_weights|].
  intros i j P HPij. rewrite entry_fmap2, HPij. cbn. do 2 f_equal.
  assert (length P = (lmax + 1)%nat) as HPl.
  { unfold entry in HPij. destruct (p_ell_ij !! i) as [row|] eqn:Hrow; [|done].
    cbn in HPij. rewrite Forall_forall in HP.
    specialize (HP row ltac:(eapply list_elem_of_lookup_2; done)).
    rewrite Forall_forall in HP.
    rewrite <- HC. apply HP. by eapply list_elem_of_lookup_2. }
  rewrite HC, multipole_factors_tabulate by done.
  rewrite (vector_tabulate beam), (vector_tabulate pixwin) at 1.
  rewrite (vector_tabulate C_ell) at 1.
  rewrite Hb, Hp, HC, <- !list_fmap_compose, !zip_with_tabulate.
  rewrite (vector_tabulate P) at 1. rewrite HPl, zip_with_tabulate. f_equal.
  apply list_fmap_ext. intros _ l _. cbn. ring.
Qed.

Lemma get_signal_cov_entries_witness :
  ∃ S_cov,
    get_signal_cov [0; 0; 1; 0] [1; 1; 1; 1] [1; 1; 1; 1] [[[1; 1; 1; 1]]]
    = Ok S_cov ∧
    ∀ i j P, entry [[[1; 1; 1; 1]]] i j = Some P →
      entry S_cov i j
      = Some (np_sum
                ((λ l, (2 * INR l * (INR 3 + 1) / INR 3 - 1)
                       * at1 [1; 1; 1; 1] l ^ 2 * at1 [1; 1; 1; 1] l ^ 2
                       * at1 [0; 0; 1; 0] l * at1 P l) <$> seq 0 (3 + 1))
              / (4 * PI)).
Proof.
  apply (get_signal_cov_entries 3 [0; 0; 1; 0] [1; 1; 1; 1] [1; 1; 1; 1]
           [[[1; 1; 1; 1]]]); try reflexivity; [lia|repeat constructor].
Defined.

Lemma zip_with_scale_r (c : R) (a C_ell : list R) :
  zip_with Rmult a (Rmult c <$> C_ell) = Rmult c <$> zip_with Rmult a C_ell.
Proof.
  revert C_ell. induction a as [|a0 a IH]; intros [|c0 C_ell]; try done.
  cbn [fmap list_fmap zip_with]. f_equal; [ring|apply IH].
Qed.

(** The signal covariance is linear in the spectrum. *)
Lemma get_signal_cov_scale (c : R) (C_ell beam pixwin : list R)
    (p_ell_ij : list (list (list R))) :
  length beam = length C_ell → length pixwin = length C_ell →
  Forall (Forall (λ P, length P = length C_ell)) p_ell_ij →
  ∃ S_cov,
    get_signal_cov C_ell beam pixwin p_ell_ij = Ok S_cov ∧
    get_signal_cov (Rmult c <$> C_ell) beam pixwin p_ell_ij
    = Ok (map_entries (Rmult c) S_cov).
Proof.
  intros Hb Hp HP. eexists. split; [by apply get_signal_cov_weights|].
  rewrite get_signal_cov_weights by (by rewrite ?length_fmap).
  cbn zeta. rewrite length_fmap, zip_with_scale_r. f_equal.
  unfold map_entries. rewrite <- list_fmap_compose.
  apply list_fmap_ext. intros _ row _. cbn.
  rewrite <- list_fmap_compose. apply list_fmap_ext. intros _ P _. cbn.
  match goal with |- context [np_sum (zip_with Rmult (Rmult c <$> ?w) P)] =>
    pose proof (vdot_scale_l c w P) as Hs; unfold vdot in Hs;
    change (@s_mul R PyReal) with Rmult in Hs; rewrite Hs end.
  unfold Rdiv. ring.
Qed.

(** X19.  The two steps of the model composed: the signal covariance of
    the spectrum [get_C_ell_model Q n lmax] is [Q^2] times the signal
    covariance of the spectrum of unit amplitude. *)
Theorem get_signal_cov_amplitude (Q n : R) (lmax : nat) (beam pixwin : list R)
    (p_ell_ij : list (list (list R))) :
  (2 ≤ lmax)%nat →
  (∀ l, (2 ≤ l < lmax)%nat → 2 * INR l + 5 - n ≠ 0) →
  length beam = (lmax + 1)%nat → length pixwin = (lmax + 1)%nat →
  Forall (Forall (λ P, length P = (lmax + 1)%nat)) p_ell_ij →
  ∃ C_Q C_1 S_Q S_1,
    get_C_ell_model Q n lmax = Ok C_Q ∧
    get_C_ell_model 1 n lmax = Ok C_1 ∧
    get_signal_cov C_Q beam pixwin p_ell_ij = Ok S_Q ∧
    get_signal_cov C_1 beam pixwin p_ell_ij = Ok S_1 ∧
    S_Q = map_entries (Rmult (Q ^ 2)) S_1.
Proof.
  intros Hl Hden Hb Hp HP.
  assert (∀ l, (2 ≤ l < lmax)%nat → IZR (2 * Z.of_nat l + 5) - n ≠ 0) as Hden'.
  { intros l Hlt. rewrite IZR_denominator. by apply Hden. }
  set (C_1 := spectrum 1 n <$> seq 0 (lmax + 1)).
  assert (length C_1 = (lmax + 1)%nat) as HC1
    by (unfold C_1; by rewrite length_fmap, length_seq).
  destruct (get_signal_cov_scale (Q ^ 2) C_1 beam pixwin p_ell_ij)
    as (S_1 & HS1 & HSQ); [congruence|congruence|by rewrite HC1|].
  exists (Rmult (Q ^ 2) <$> C_1), C_1, (map_entries (Rmult (Q ^ 2)) S_1), S_1.
  split; [|by rewrite get_C_ell_model_spectrum].
  rewrite get_C_ell_model_spectrum by done. f_equal.
  unfold C_1. rewrite <- list_fmap_compose. apply list_fmap_ext.
  intros _ l _. cbn. rewrite spectrum_scale. ring.
Qed.

Lemma get_signal_cov_amplitude_witness :
  ∃ C_Q C_1 S_Q S_1,
    get_C_ell_model 3 1 2 = Ok C_Q ∧
    get_C_ell_model 1 1 2 = Ok C_1 ∧
    get_signal_cov C_Q [1; 1; 1] [1; 1; 1] [[[1; 1; 1]]] = Ok S_Q ∧
    get_signal_cov C_1 [1; 1; 1] [1; 1; 1] [[[1; 1; 1]]] = Ok S_1 ∧
    S_Q = map_entries (Rmult (3 ^ 2)) S_1.
Proof.
  apply (get_signal_cov_amplitude 3 1 2 [1; 1; 1] [1; 1; 1] [[[1; 1; 1]]]);
    first [lia | reflexivity | (intros l Hl; lia) | repeat constructor].
Defined.

Lemma symmetric_slices_tabulate3 (f : nat → nat → nat → R) (n k : nat) :
  (∀ i j l, f i j l = f j i l) → symmetric_slices (tabulate3 n n k f).
Proof.
  intros Hf i j. unfold entry, tabulate3.
  rewrite !lookup_tabulate.
  destruct (decide (i < n)%nat), (decide (j < n)%nat); cbn;
    unfold tabulate2; rewrite ?lookup_tabulate, ?decide_True, ?decide_False by done;
    try done.
  f_equal. apply list_fmap_ext. intros _ l' _. apply Hf.
Qed.

(** X20.  The geometry and the signal composed: for coordinate sequences
    of equal length and a spectrum, beam and pixel window of length
    [lmax + 1], the signal covariance built on the tensor of
    [get_legendre_mat] is a symmetric matrix with one row per pixel. *)
Theorem get_signal_cov_legendre_symmetric (lmax : nat) (x y z : list R)
    (C_ell beam pixwin : list R) :
  length y = length x → length z = length x →
  length C_ell = (lmax + 1)%nat →
  length beam = (lmax + 1)%nat → length pixwin = (lmax + 1)%nat →
  ∃ p_ell_ij S_cov,
    get_legendre_mat lmax x y z = Ok p_ell_ij ∧
    get_signal_cov C_ell beam pixwin p_ell_ij = Ok S_cov ∧
    length S_cov = length x ∧
    symmetric S_cov.
Proof.
  intros Hy Hz HC Hb Hp. eexists. eexists.
  split; [by apply get_legendre_mat_tabulate|].
  split; [apply get_signal_cov_weights; try congruence|split].
  - unfold tabulate3, tabulate2.
    apply Forall_fmap, Forall_forall. intros i _.
    apply Forall_fmap, Forall_forall. intros j _. cbn.
    by rewrite length_fmap, length_seq.
  - unfold tabulate3. by rewrite !length_fmap, length_seq.
  - intros i j. rewrite !entry_fmap2. f_equal.
    apply symmetric_slices_tabulate3. intros i' j' l. f_equal. cbn. ring.
Qed.

Lemma get_signal_cov_legendre_symmetric_witness :
  ∃ p_ell_ij S_cov,
    get_legendre_mat 2 [1; 0] [0; 1] [0; 0] = Ok p_ell_ij ∧
    get_signal_cov [0; 0; 1] [1; 1; 1] [1; 1; 1] p_ell_ij = Ok S_cov ∧
    length S_cov = 2%nat ∧
    symmetric S_cov.
Proof.
  apply (get_signal_cov_legendre_symmetric 2 [1; 0] [0; 1] [0; 0]
           [0; 0; 1] [1; 1; 1] [1; 1; 1]); reflexivity.
Defined.

(** ** The likelihood reads the upper triangle only *)

Lemma potrf_upper_same_upper_triangle (n : nat) (A B : list (list R)) :
  is_matrix n n A → is_matrix n n B → same_upper_triangle A B →
  potrf_upper n A = potrf_upper n B.
Proof.
  revert A B. induction n as [|n IH]; intros A B HA HB Hup; [done|].
  pose proof HA as [HAlen HArows]. pose proof HB as [HBlen HBrows].
  destruct A as [|[|a b] rest]; [done| |].
  { apply Forall_cons in HArows as [? _]. done. }
  destruct B as [|[|a' b'] rest']; [done| |].
  { apply Forall_cons in HBrows as [? _]. done. }
  apply Forall_cons in HArows as [Hb HArows].
  apply Forall_cons in HBrows as [Hb' HBrows].
  cbn in HAlen, HBlen, Hb, Hb'.
  assert (a :: b = a' :: b') as Hrow.
  { apply list_eq. intros j. apply (Hup 0%nat j). lia. }
  injection Hrow as <- <-.
  cbn [potrf_upper]. destruct (Rle_dec a 0) as [?|_]; [done|].
  rewrite (IH _ (zip_with (zip_with Rminus) (tail <$> rest')
                   (outer ((λ v, v / sqrt a) <$> b) ((λ v, v / sqrt a) <$> b))));
    [done| | |].
  - apply schur_is_matrix; [split; [lia|done]|]. rewrite length_fmap. lia.
  - apply schur_is_matrix; [split; [lia|done]|]. rewrite length_fmap. lia.
  - intros i j Hij. rewrite !entry_zip_with2.
    rewrite <- (entry_cons_cons a b rest), <- (entry_cons_cons a b rest').
    rewrite (Hup (S i) (S j)) by lia. done.
Qed.

(** X21.  [get_lnL] reads its covariance on and above the diagonal only:
    two square matrices of the same order that agree there give the same
    result (value or error) for every data vector.  A matrix that is not
    symmetric is not rejected. *)
Theorem get_lnL_upper_triangle_only (data : list R) (cov cov' : list (list R)) :
  is_matrix (length cov) (length cov) cov →
  is_matrix (length cov) (length cov) cov' →
  same_upper_triangle cov cov' →
  get_lnL data cov = get_lnL data cov'.
Proof.
  intros Hc Hc' Hup. unfold get_lnL.
  assert (length cov' = length cov) as Hlen by apply Hc'.
  rewrite !cholesky_square by (rewrite ?Hlen; done).
  by rewrite Hlen, (potrf_upper_same_upper_triangle _ cov cov').
Qed.

Lemma get_lnL_upper_triangle_only_witness :
  get_lnL [1; 0] [[1; 1]; [1; 2]] = get_lnL [1; 0] [[1; 1]; [5; 2]].
Proof.
  apply (get_lnL_upper_triangle_only [1; 0] [[1; 1]; [1; 2]] [[1; 1]; [5; 2]]).
  - split; [done|]. repeat constructor.
  - split; [done|]. repeat constructor.
  - intros [|[|i]] [|[|j]] Hij; try reflexivity; lia.
Defined.

(** ** Binary64 multiplication *)

Local Close Scope R_scope.
Local Open Scope Z_scope.

(** Rounding keeps the sign it is given. *)
Lemma binary_round_aux_sign (sx : bool) (mx ex : Z) (lx : SpecFloat.location) :
  let r := SpecFloat.binary_round_aux FloatOps.prec FloatOps.emax sx mx ex lx in
  r = SpecFloat.S754_nan ∨ r = SpecFloat.S754_zero sx ∨
  r = SpecFloat.S754_infinity sx ∨ ∃ m e, r = SpecFloat.S754_finite sx m e.
Proof.
  unfold SpecFloat.binary_round_aux.
  destruct (SpecFloat.shr_fexp _ _ mx ex lx) as [mrs' e'].
  destruct (SpecFloat.shr_fexp _ _ _ e' _) as [mrs'' e''].
  destruct (SpecFloat.shr_m mrs''); [by right; left|..|by left].
  case (Z.leb _ _); [right; right; right; eauto | right; right; left; done].
Qed.

Lemma is_finite_Prim2SF (x : PrimFloat.float) :
  is_finite x = true →
  (∃ s, FloatOps.Prim2SF x = SpecFloat.S754_zero s) ∨
  (∃ s m e, FloatOps.Prim2SF x = SpecFloat.S754_finite s m e).
Proof.
  unfold is_finite, PrimFloat.is_nan, PrimFloat.is_infinity.
  rewrite !FloatAxioms.eqb_spec, FloatAxioms.abs_spec.
  destruct (FloatOps.Prim2SF x) as [s|s| |s m e]; eauto.
  - cbn. rewrite andb_false_r. done.
  - done.
Qed.

(** A finite square is [+0] or a positive number. *)
Lemma float64_square_sign (r : PrimFloat.float) :
  is_finite (PrimFloat.mul r r) = true →
  FloatOps.Prim2SF (PrimFloat.mul r r) = SpecFloat.S754_zero false ∨
  ∃ m e, FloatOps.Prim2SF (PrimFloat.mul r r) = SpecFloat.S754_finite false m e.
Proof.
  intros Hfin. apply is_finite_Prim2SF in Hfin. revert Hfin.
  rewrite FloatAxioms.mul_spec. unfold FloatAxioms.SF64mul.
  destruct (FloatOps.Prim2SF r) as [s|s| |s m e]; cbn.
  - intros _. left. by destruct s.
  - intros [[? [=]]|(? & ? & ? & [=])].
  - intros [[? [=]]|(? & ? & ? & [=])].
  - pose proof (binary_round_aux_sign (xorb s s) (Z.pos (m * m)) (e + e)
                  SpecFloat.loc_Exact) as Hs.
    cbn zeta in Hs. rewrite xorb_nilpotent in *.
    destruct Hs as [-> | [-> | [-> | (m' & e' & ->)]]]; eauto;
      intros [[? [=]]|(? & ? & ? & [=])].
Qed.

(** [0 * x = 0] holds for the finite squares; for an infinite [x] the
    product is NaN. *)
Lemma float64_mul_0_square (r : PrimFloat.float) :
  is_finite (PrimFloat.mul r r) = true →
  PrimFloat.mul (float_of_Z 0) (PrimFloat.mul r r) = float_of_Z 0.
Proof.
  intros Hfin. apply FloatAxioms.Prim2SF_inj.
  rewrite FloatAxioms.mul_spec.
  change (FloatOps.Prim2SF (float_of_Z 0)) with (SpecFloat.S754_zero false).
  destruct (float64_square_sign r Hfin) as [-> | (m & e & ->)]; done.
Qed.

Lemma digits2_pos_double (p m : positive) :
  Z.pos (SpecFloat.digits2_pos (p~0 * m))
  = Z.pos (SpecFloat.digits2_pos (p * m)) + 1.
Proof.
  change (p~0 * m)%positive with ((p * m)~0)%positive.
  cbn [SpecFloat.digits2_pos]. lia.
Qed.

Lemma digits2_pos_shift52 (m : positive) :
  Z.pos (SpecFloat.digits2_pos (4503599627370496 * m))
  = Z.pos (SpecFloat.digits2_pos m) + 52.
Proof. rewrite !digits2_pos_double. rewrite Pos.mul_1_l. lia. Qed.

Lemma shr_1_shift52 (m : positive) :
  SpecFloat.iter_pos SpecFloat.shr_1 52
    {| SpecFloat.shr_m := Z.pos (4503599627370496 * m);
       SpecFloat.shr_r := false; SpecFloat.shr_s := false |}
  = {| SpecFloat.shr_m := Z.pos m;
       SpecFloat.shr_r := false; SpecFloat.shr_s := false |}.
Proof. reflexivity. Qed.

(** [1 * x] is [x] for every binary64 [x]: the product of the mantissas,
    [2^52 * m], is shifted back by 52 digits without a remainder. *)
Lemma float64_mul_1_l (x : PrimFloat.float) :
  PrimFloat.mul (float_of_Z 1) x = x.
Proof.
  apply FloatAxioms.Prim2SF_inj. rewrite FloatAxioms.mul_spec.
  change (FloatOps.Prim2SF (float_of_Z 1))
    with (SpecFloat.S754_finite false 4503599627370496 (-52)).
  pose proof (FloatAxioms.Prim2SF_valid x) as Hv.
  unfold FloatAxioms.SF64mul.
  destruct (FloatOps.Prim2SF x) as [s|s| |s m e]; try done.
  cbn [SpecFloat.SFmul xorb].
  cbn [SpecFloat.valid_binary] in Hv. unfold SpecFloat.bounded in Hv.
  apply andb_true_iff in Hv as [Hc He].
  unfold SpecFloat.canonical_mantissa in Hc. apply Z.eqb_eq in Hc.
  unfold SpecFloat.binary_round_aux, SpecFloat.shr_fexp.
  cbn [SpecFloat.Zdigits2]. rewrite digits2_pos_shift52.
  replace (Z.pos (SpecFloat.digits2_pos m) + 52 + (-52 + e))
    with (Z.pos (SpecFloat.digits2_pos m) + e) by lia.
  rewrite Hc. replace (e - (-52 + e)) with 52 by lia.
  cbn [SpecFloat.shr SpecFloat.shr_record_of_loc]. rewrite shr_1_shift52.
  cbn [SpecFloat.shr_m SpecFloat.loc_of_shr_record
       SpecFloat.round_nearest_even SpecFloat.Zdigits2].
  replace (-52 + e + 52) with e by lia.
  rewrite Hc, Z.sub_diag.
  cbn [SpecFloat.shr SpecFloat.shr_m]. by rewrite He.
Qed.

(** ** The noise covariance in binary64 *)

Section NoiseCovariance.
Context {T : Type} `{Scalar T}.

(** The entries of [eye(N, N) * rms ** 2] before any law of arithmetic is
    used: entry [(i, j)] is [1 * rms[j]^2] or [0 * rms[j]^2]. *)
Lemma get_noise_cov_entries (rms : list T) :
  get_noise_cov rms
  = Ok (tabulate2 (length rms) (length rms)
          (λ i j, s_mul (if decide (i = j) then of_int 1 else of_int 0)
                        (sqr (default (of_int 0) (rms !! j))))).
Proof.
  unfold get_noise_cov.
  assert (sqr <$> rms
          = (λ j, sqr (default (of_int 0) (rms !! j))) <$> seq 0 (length rms))
    as ->.
  { apply list_eq. intros i. rewrite lookup_tabulate, list_lookup_fmap.
    case_decide as Hi.
    - destruct (lookup_lt_is_Some_2 rms i Hi) as [a ->]. done.
    - rewrite lookup_ge_None_2 by lia. done. }
  change (eye (length rms) (length rms))
    with (tabulate2 (length rms) (length rms)
            (λ i j, if decide (i = j) then of_int (T:=T) 1 else of_int 0)).
  by rewrite ew2_row.
Qed.
End NoiseCovariance.

Lemma get_noise_cov_float64_entries (rms : list PrimFloat.float) :
  Forall (λ s, is_finite (PrimFloat.mul s s) = true) rms →
  get_noise_cov rms
  = Ok (tabulate2 (length rms) (length rms)
          (λ i j, if decide (i = j)
                  then match rms !! j with
                       | Some s => PrimFloat.mul s s
                       | None => float_of_Z 0
                       end
                  else float_of_Z 0)).
Proof.
  intros Hfin. rewrite get_noise_cov_entries. f_equal.
  apply tabulate2_ext. intros i j _ Hj.
  destruct (lookup_lt_is_Some_2 rms j Hj) as [s Hs]. rewrite Hs. cbn.
  case_decide.
  - apply float64_mul_1_l.
  - apply float64_mul_0_square.
    exact (Forall_lookup_1 _ rms j s Hfin Hs).
Qed.

(** C7, with the range condition it needs.  For every sequence [rms] of [N]
    binary64 standard deviations whose squares [rms[i] * rms[i]] are all
    finite (none overflows to an infinity, none is NaN),
    [get_noise_cov rms] returns an [N x N] matrix whose [(i, i)] entry is
    the square of [rms[i]] and whose entries off the diagonal are exactly
    [0]; the matrix is symmetric.  For [rms = [1, 2, 3]] it is
    [diag([1, 4, 9])]. *)
Theorem get_noise_cov_finite_squares :
  (∀ rms : list PrimFloat.float,
      Forall (λ s, is_finite (PrimFloat.mul s s) = true) rms →
      ∃ N_cov,
        get_noise_cov rms = Ok N_cov ∧
        is_matrix (length rms) (length rms) N_cov ∧
        (∀ i s, rms !! i = Some s →
                entry N_cov i i = Some (PrimFloat.mul s s)) ∧
        (∀ i j, (i < length rms)%nat → (j < length rms)%nat → i ≠ j →
                entry N_cov i j = Some (float_of_Z 0)) ∧
        symmetric N_cov) ∧
  get_noise_cov (f64_vector [1; 2; 3])
  = Ok (f64_matrix [[1; 0; 0]; [0; 4; 0]; [0; 0; 9]]).
Proof.
  split; [|vm_compute; reflexivity].
  intros rms Hfin. eexists. split; [by apply get_noise_cov_float64_entries|].
  split; [apply is_matrix_tabulate2|]. repeat split.
  - intros i s Hi. rewrite entry_tabulate2.
    pose proof (lookup_lt_Some _ _ _ Hi).
    rewrite decide_True by done. rewrite decide_True by done. by rewrite Hi.
  - intros i j Hi Hj Hij. rewrite entry_tabulate2.
    rewrite decide_True by done. by rewrite decide_False by done.
  - apply symmetric_tabulate2. intros i j _ _.
    destruct (Nat.eq_dec i j) as [->|Hij]; [done|].
    by rewrite !decide_False by done.
Qed.

Lemma get_noise_cov_finite_squares_witness :
  Forall (λ s, is_finite (PrimFloat.mul s s) = true) (f64_vector [3; 1; 2]) ∧
  ∃ N_cov,
    get_noise_cov (f64_vector [3; 1; 2]) = Ok N_cov ∧
    is_matrix 3 3 N_cov ∧
    (∀ i s, f64_vector [3; 1; 2] !! i = Some s →
            entry N_cov i i = Some (PrimFloat.mul s s)) ∧
    (∀ i j, (i < 3)%nat → (j < 3)%nat → i ≠ j →
            entry N_cov i j = Some (float_of_Z 0)) ∧
    symmetric N_cov.
Proof.
  split; [repeat constructor|].
  apply (proj1 get_noise_cov_finite_squares (f64_vector [3; 1; 2])).
  repeat constructor.
Defined.

(** C7 fails without the range condition.  [2.0 ** 512] is a finite
    binary64 number whose square overflows; for [rms = [2.0 ** 512, 1.0]]
    the product [eye(2, 2) * rms ** 2] multiplies [0] by an infinity in the
    first column: the matrix returned is [[inf, 0], [nan, 1]], with an
    entry off the diagonal that is not [0], and it is not symmetric. *)
Lemma get_noise_cov_float64_overflow :
  FloatOps.Prim2SF float64_2p512
  = SpecFloat.S754_finite false (2 ^ 52) (512 - 52) ∧
  is_finite float64_2p512 = true ∧
  ∃ N_cov,
    get_noise_cov [float64_2p512; float_of_Z 1] = Ok N_cov ∧
    N_cov = [[PrimFloat.infinity; float_of_Z 0];
             [PrimFloat.nan; float_of_Z 1]] ∧
    entry N_cov 1 0 ≠ Some (float_of_Z 0) ∧
    ¬ symmetric N_cov.
Proof.
  split; [vm_compute; reflexivity|]. split; [vm_compute; reflexivity|].
  eexists. split; [vm_compute; reflexivity|]. split; [reflexivity|].
  assert (∀ x : option PrimFloat.float, x = Some PrimFloat.nan →
            x ≠ Some (float_of_Z 0)) as Hnan.
  { intros x -> Heq.
    apply (f_equal (λ o, match o with
                         | Some y => PrimFloat.is_nan y
                         | None => false
                         end)) in Heq.
    vm_compute in Heq. discriminate. }
  split; [by apply Hnan|].
  intros Hsym. apply (Hnan (Some PrimFloat.nan) eq_refl).
  exact (Hsym 1%nat 0%nat).
Qed.

(** ** The binary64 noise covariance as a real matrix *)

(** [float64_to_R] on a test value: [4.0 = 2^52 * 2^-50] stands for [4]. *)
Example float64_to_R_4 : float64_to_R (float_of_Z 4) = 4%R.
Proof.
  unfold float64_to_R.
  change (FloatOps.Prim2SF (float_of_Z 4))
    with (SpecFloat.S754_finite false (2 ^ 52) (-50)).
  cbv beta iota.
  change (Z.pos (2 ^ 52)) with (2 ^ Z.of_nat 52)%Z. rewrite <- pow_IZR.
  change (powerRZ 2 (-50)) with (/ 2 ^ 50)%R.
  replace (2 ^ 52)%R with (4 * 2 ^ 50)%R by ring.
  field.
Qed.

Lemma float64_to_R_square_pos (s : PrimFloat.float) :
  square_in_range s → (0 < float64_to_R (PrimFloat.mul s s))%R.
Proof.
  intros [Hfin Hnz]. unfold float64_to_R.
  destruct (float64_square_sign s Hfin) as [Hz | (m & e & ->)].
  - exfalso. revert Hnz. unfold PrimFloat.is_zero.
    by rewrite FloatAxioms.eqb_spec, Hz.
  - rewrite Rmult_1_l. apply Rmult_lt_0_compat.
    + by apply IZR_lt.
    + apply powerRZ_lt. lra.
Qed.

Lemma float64_matrix_to_R_tabulate2 (f : nat → nat → PrimFloat.float)
    (n m : nat) :
  float64_matrix_to_R (tabulate2 n m f)
  = tabulate2 n m (λ i j, float64_to_R (f i j)).
Proof.
  unfold float64_matrix_to_R, tabulate2. rewrite <- list_fmap_compose.
  apply list_fmap_ext. intros _ i _. cbn. by rewrite <- list_fmap_compose.
Qed.

(** With finite squares the matrix computed in binary64 is [numpy.diag] of
    the computed squares. *)
Lemma get_noise_cov_float64_np_diag (rms : list PrimFloat.float) :
  Forall (λ s, is_finite (PrimFloat.mul s s) = true) rms →
  ∃ N_cov,
    get_noise_cov rms = Ok N_cov ∧
    float64_matrix_to_R N_cov
    = np_diag ((λ s, float64_to_R (PrimFloat.mul s s)) <$> rms).
Proof.
  intros Hfin. eexists. split; [by apply get_noise_cov_float64_entries|].
  rewrite float64_matrix_to_R_tabulate2, np_diag_tabulate, length_fmap.
  apply tabulate2_ext. intros i j Hi Hj. unfold at1.
  rewrite list_lookup_fmap.
  destruct (Nat.eq_dec i j) as [->|Hij].
  - rewrite !decide_True by done.
    destruct (lookup_lt_is_Some_2 rms j Hj) as [s ->]. done.
  - by rewrite !decide_False by done.
Qed.

Lemma square_in_range_finite (rms : list PrimFloat.float) :
  Forall square_in_range rms →
  Forall (λ s, is_finite (PrimFloat.mul s s) = true) rms.
Proof. intros Hr. eapply Forall_impl; [done|]. by intros s [? _]. Qed.

Lemma square_in_range_positive (rms : list PrimFloat.float) :
  Forall square_in_range rms →
  Forall (λ a, (0 < a)%R) ((λ s, float64_to_R (PrimFloat.mul s s)) <$> rms).
Proof.
  intros Hr. apply Forall_fmap. eapply Forall_impl; [done|].
  intros s Hs. by apply float64_to_R_square_pos.
Qed.

(** X5.  The likelihood of pure noise.  For binary64 standard deviations
    whose squares [v_i = rms_i * rms_i] are finite and nonzero (no overflow,
    no underflow to zero) and real data of the same length, [get_lnL],
    evaluated in real arithmetic on the matrix [get_noise_cov(rms)] computed
    in binary64, is [sum d_i^2 / v_i + (sum ln v_i) / 2]: the logarithmic
    term is half of [ln det], as the code sums [ln] of the Cholesky diagonal
    without doubling. *)
Theorem get_lnL_noise_cov (d : list R) (rms : list PrimFloat.float) :
  length d = length rms → Forall square_in_range rms →
  ∃ N_cov,
    get_noise_cov rms = Ok N_cov ∧
    let v := (λ s, float64_to_R (PrimFloat.mul s s)) <$> rms in
    get_lnL d (float64_matrix_to_R N_cov)
    = Ok (np_sum (zip_with (λ di vi, di ^ 2 / vi) d v)
          + np_sum (ln <$> v) / 2)%R.
Proof.
  intros Hlen Hr.
  destruct (get_noise_cov_float64_np_diag rms (square_in_range_finite _ Hr))
    as (N_cov & HN & HR).
  exists N_cov. split; [done|]. cbn zeta. rewrite HR. apply get_lnL_np_diag.
  - by rewrite length_fmap.
  - by apply square_in_range_positive.
Qed.

Lemma get_lnL_noise_cov_witness :
  ∃ N_cov,
    get_noise_cov (f64_vector [2; 3]) = Ok N_cov ∧
    let v := (λ s, float64_to_R (PrimFloat.mul s s)) <$> f64_vector [2; 3] in
    get_lnL [1; 1]%R (float64_matrix_to_R N_cov)
    = Ok (np_sum (zip_with (λ di vi, di ^ 2 / vi) [1; 1] v)
          + np_sum (ln <$> v) / 2)%R.
Proof.
  apply (get_lnL_noise_cov [1; 1]%R (f64_vector [2; 3])); [done|].
  repeat constructor.
Defined.

(** X6.  For binary64 standard deviations whose squares are finite and
    nonzero (no overflow, no underflow to zero) the matrix
    [get_noise_cov(rms)] computed in binary64, its entries read as real
    numbers, is positive definite. *)
Theorem get_noise_cov_positive_definite (rms : list PrimFloat.float) :
  Forall square_in_range rms →
  ∃ N_cov,
    get_noise_cov rms = Ok N_cov ∧
    positive_definite (float64_matrix_to_R N_cov).
Proof.
  intros Hr.
  destruct (get_noise_cov_float64_np_diag rms (square_in_range_finite _ Hr))
    as (N_cov & HN & HR).
  exists N_cov. split; [done|]. rewrite HR.
  by apply np_diag_positive_definite, square_in_range_positive.
Qed.

Lemma get_noise_cov_positive_definite_witness :
  ∃ N_cov,
    get_noise_cov (f64_vector [2; 3]) = Ok N_cov ∧
    positive_definite (float64_matrix_to_R N_cov).
Proof.
  apply (get_noise_cov_positive_definite (f64_vector [2; 3])).
  repeat constructor.
Defined.

(** ** Running the embedding in binary64 *)

Example get_noise_cov_float64 :
  get_noise_cov (f64_vector [1; 2; 3])
  = Ok (f64_matrix [[1; 0; 0]; [0; 4; 0]; [0; 0; 9]]).
Proof. vm_compute. reflexivity. Qed.

Example get_foreground_cov_float64 :
  get_foreground_cov (f64_vector [1; 0]) (f64_vector [0; 1]) (f64_vector [0; 0])
  = Ok (f64_matrix [[2000; 1000]; [1000; 2000]]).
Proof. vm_compute. reflexivity. Qed.

Example get_foreground_cov_float64_lengths :
  get_foreground_cov (f64_vector [1; 0; 0]) (f64_vector [0; 1])
    (f64_vector [0; 0; 1])
  = Raise ValueError.
Proof. vm_compute. reflexivity. Qed.

Example get_C_ell_model_float64_lmax1 :
  get_C_ell_model (float_of_Z 1) (float_of_Z 1) 1 = Raise IndexError.
Proof. vm_compute. reflexivity. Qed.

Example get_legendre_mat_float64 :
  get_legendre_mat 1 (f64_vector [1; 0]) (f64_vector [0; 1]) (f64_vector [0; 0])
  = Ok (f64_tensor [[[1; 1]; [1; 0]]; [[1; 0]; [1; 1]]]).
Proof. vm_compute. reflexivity. Qed.

Example get_signal_cov_float64_lengths :
  get_signal_cov (f64_vector [0; 0; 1; 0]) (f64_vector [1; 1; 1])
    (f64_vector [1; 1; 1; 1]) (f64_tensor [[[1; 1; 1; 1]]])
  = Raise ValueError.
Proof. vm_compute. reflexivity. Qed.
